(** * yummy-donut: a depth-buffered ASCII torus renderer

    Shallow embedding of the renderer: the translation unit that defines
    [render_mesh] (with [NUM_POINTS = 500]).  [torus.cpp] has the same
    sampler, rotation and sort, [NUM_POINTS = 100] and empty rendering
    functions.

    Conventions of the embedding.

    - [float] arithmetic is exact: the operations [+ - * /] are those of a
      field, decimal literals denote their decimal value, and rounding,
      infinities and NaN are not modelled.  The code is written once over
      a class of scalar operations and instantiated at [Q] (where it
      runs) and at [R] (where [std::sin] and [std::cos] are the real
      functions).  The one conversion modelled with its rounding is
      [float_of_int], through which [render_point] receives the sizes.
    - [std::sin], [std::cos] and [sqrt] are library functions: they are the
      fields of the class [Libm].
    - [int] is the 32-bit two's complement integer of the x86-64 ABI:
      arithmetic wraps, and the conversion of an out-of-range [float]
      yields [INT_MIN] (the "integer indefinite" value of [cvttss2si]).
    - [std::vector] accesses are checked in the model: an index outside
      the vector is the fault [OutOfBounds]; constructing a vector from a
      negative [int] count (converted to a huge [size_t]) is the fault
      [LengthError], the exception the library throws. *)

From Stdlib Require Import ZArith QArith Qround Reals RNsatz Psatz Permutation Sorted Ascii.
From stdpp Require Import base list strings pretty.

Open Scope Z_scope.

(** ** Scalars *)

Class Scalar (float : Type) : Type := {
  add : float → float → float;
  sub : float → float → float;
  mul : float → float → float;
  div : float → float → float;
  neg : float → float;
  lit : Q → float
}.

Declare Scope float_scope.
Delimit Scope float_scope with fl.
Infix "+" := add : float_scope.
Infix "-" := sub : float_scope.
Infix "*" := mul : float_scope.
Infix "/" := div : float_scope.
Notation "- a" := (neg a) : float_scope.

(** [static_cast<float>(i)] of an [int]. *)
Definition of_int `{Scalar float} (i : Z) : float := lit (inject_Z i).

(** [std::pow(a, 2.0)]. *)
Definition pow_2 `{Scalar float} (a : float) : float := (a * a)%fl.

Class Libm (float : Type) : Type := {
  std_sin : float → float;
  std_cos : float → float;
  std_sqrt : float → float
}.

#[export] Instance Q_scalar : Scalar Q :=
  {| add := Qplus; sub := Qminus; mul := Qmult; div := Qdiv;
     neg := Qopp; lit := fun q => q |}.

#[export] Instance R_scalar : Scalar R :=
  {| add := Rplus; sub := Rminus; mul := Rmult; div := Rdiv;
     neg := Ropp; lit := Q2R |}.

#[export] Instance R_libm : Libm R :=
  {| std_sin := sin; std_cos := cos; std_sqrt := sqrt |}.

(** ** Parameters, range conversion, points and rotation *)

Record Point {float : Type} : Type := mkPoint { x : float; y : float; z : float }.
Arguments Point : clear implicits.
Arguments mkPoint {float} _ _ _.

Section Geometry.
Context {float : Type} `{Scalar float} `{Libm float}.
Local Open Scope float_scope.

Definition MAJOR_RADIUS : float := lit (6 # 10).
Definition MINOR_RADIUS : float := lit (2 # 10).
Definition THETA : float := lit (1 # 10).
Definition MAX_X_Y : float := MAJOR_RADIUS + MINOR_RADIUS.

(** The constants [S] and [C] of the source ([S] is taken by the
    successor of [nat]). *)
Definition sin_theta : float := std_sin THETA.
Definition cos_theta : float := std_cos THETA.

(** [ROT], row-major. *)
Definition ROT : list float :=
  let S := sin_theta in
  let C := cos_theta in
  [ C*C;         - C*S;       S;
    S*C+S*S*C;   C*C-S*S*S;   - S*C;
    S*S-C*C*S;   S*C+C*S*S;   C*C ].

(** convert i from range [a, b] into range [c, d] *)
Definition convert_range (i a b c d : float) : float :=
  (i - a) / (b - a) * (d - c) + c.

(** [arr[k]] of a [const float (&arr)[9]]. *)
Definition at9 (arr : list float) (k : nat) : float := nth k arr (lit 0).

Definition rotate_point (point : Point float) (arr : list float) : Point float :=
  {| x := x point * at9 arr 0 + y point * at9 arr 1 + z point * at9 arr 2;
     y := x point * at9 arr 3 + y point * at9 arr 4 + z point * at9 arr 5;
     z := x point * at9 arr 6 + y point * at9 arr 7 + z point * at9 arr 8 |}.

(** The range-for assigns every element its image, in place. *)
Definition rotate_mesh (points : list (Point float)) : list (Point float) :=
  (fun p1 => rotate_point p1 ROT) <$> points.

(** What [ROT] is compared with: the rotations about the x, y and z axes
    by one angle, given its sine [s] and cosine [c], and the product,
    transpose and identity of 3x3 matrices (row-major lists of 9). *)
Definition rot_x (s c : float) : list float :=
  [ lit 1; lit 0; lit 0;
    lit 0; c;     - s;
    lit 0; s;     c ].
Definition rot_y (s c : float) : list float :=
  [ c;     lit 0; s;
    lit 0; lit 1; lit 0;
    - s;   lit 0; c ].
Definition rot_z (s c : float) : list float :=
  [ c;     - s;   lit 0;
    s;     c;     lit 0;
    lit 0; lit 0; lit 1 ].

Definition mat_entry (a b : list float) (i j : nat) : float :=
  at9 a (3*i) * at9 b j + at9 a (3*i+1) * at9 b (3+j) + at9 a (3*i+2) * at9 b (6+j).
Definition mat_mul (a b : list float) : list float :=
  [ mat_entry a b 0 0; mat_entry a b 0 1; mat_entry a b 0 2;
    mat_entry a b 1 0; mat_entry a b 1 1; mat_entry a b 1 2;
    mat_entry a b 2 0; mat_entry a b 2 1; mat_entry a b 2 2 ].
Definition transpose (a : list float) : list float :=
  [ at9 a 0; at9 a 3; at9 a 6;
    at9 a 1; at9 a 4; at9 a 7;
    at9 a 2; at9 a 5; at9 a 8 ].
Definition identity : list float :=
  [ lit 1; lit 0; lit 0;  lit 0; lit 1; lit 0;  lit 0; lit 0; lit 1 ].

(** Squared distance from the origin. *)
Definition norm2 (p : Point float) : float := x p * x p + y p * y p + z p * z p.
End Geometry.

(** ** Machine integers *)

Definition INT_MIN : Z := - 2 ^ 31.
Definition INT_MAX : Z := 2 ^ 31 - 1.

Definition in_int (n : Z) : bool := (INT_MIN <=? n) && (n <=? INT_MAX).

(** Two's complement wrap-around of [int] arithmetic. *)
Definition wrap_int (n : Z) : Z := (n + 2 ^ 31) mod 2 ^ 32 - 2 ^ 31.
Definition int_add (a b : Z) : Z := wrap_int (a + b).
Definition int_mul (a b : Z) : Z := wrap_int (a * b).

(** [std::floor]. *)
Definition std_floor (q : Q) : Q := inject_Z (Qfloor q).

Definition Qltb (a b : Q) : bool :=
  match (a ?= b)%Q with Lt => true | _ => false end.

(** Truncation toward zero. *)
Definition Qtrunc (q : Q) : Z := if Qltb q 0 then Qceiling q else Qfloor q.

(** [static_cast<int>] of a [float]: truncation toward zero, [INT_MIN]
    when the truncated value is not an [int]. *)
Definition static_cast_int (q : Q) : Z :=
  let t := Qtrunc q in
  if in_int t then t else INT_MIN.

(** ** Surface sampler *)

Section Sampler.
Context `{Libm Q}.
(** [NUM_POINTS] is 500 in the renderer and 100 in [torus.cpp]. *)
Variable NUM_POINTS : Z.
Local Open Scope float_scope.

(** calculate the positive z given x and y, return none if not part of
    the torus *)
Definition calculate_pos_z (x y : Q) : option Q :=
  let inner := pow_2 MINOR_RADIUS - pow_2 (std_sqrt (x*x + y*y) - MAJOR_RADIUS) in
  if Qltb inner (lit 0) then None else Some (std_sqrt inner).

Definition mesh_to_value (i : Z) : Q :=
  convert_range (of_int i) (lit 0) (of_int NUM_POINTS) (lit (-1) * MAX_X_Y) MAX_X_Y.

(** The body of the inner loop; [push_back] appends. *)
Definition init_mesh_body (points : list (Point Q)) (i j : Z) : list (Point Q) :=
  let x := mesh_to_value i in
  let y := mesh_to_value j in
  match calculate_pos_z x y with
  | Some zv =>
      let points := points ++ [mkPoint x y zv] in
      points ++ [mkPoint x y (lit (-1) * zv)]
  | None => points
  end.

Definition init_mesh : list (Point Q) :=
  foldl (fun points i =>
           foldl (fun points j => init_mesh_body points i j)
                 points (seqZ 0 NUM_POINTS))
        [] (seqZ 0 NUM_POINTS).
End Sampler.

(** ** Depth sort *)

Definition order_points (a b : Point Q) : bool :=
  if Qltb (z a) (z b) then true else false.

(** [std::sort(first, last, comp)]: the library fixes the result only up
    to the order of equivalent elements; the model sorts by insertion. *)
Fixpoint sort_insert (comp : Point Q → Point Q → bool) (p : Point Q)
    (l : list (Point Q)) : list (Point Q) :=
  match l with
  | [] => [p]
  | q :: l' => if comp q p then q :: sort_insert comp p l' else p :: q :: l'
  end.

Definition std_sort (comp : Point Q → Point Q → bool) (l : list (Point Q))
    : list (Point Q) :=
  foldr (sort_insert comp) [] l.

(** ** Faults and checked vectors *)

Inductive fault : Type :=
| LengthError                 (* std::length_error from a vector constructor *)
| OutOfBounds (what : string) (* operator[] outside the named array *).

Inductive result (A : Type) : Type :=
| Ok (a : A)
| Fault (e : fault).
Arguments Ok {A} a.
Arguments Fault {A} e.

#[export] Instance result_ret : MRet result := fun _ a => Ok a.
#[export] Instance result_bind : MBind result := fun _ _ f m =>
  match m with Ok a => f a | Fault e => Fault e end.
#[export] Instance result_fmap : FMap result := fun _ _ f m =>
  match m with Ok a => Ok (f a) | Fault e => Fault e end.

(** A loop over a list whose body may fault. *)
Fixpoint foldlM {A B : Type} (f : A → B → result A) (a : A) (l : list B) : result A :=
  match l with
  | [] => Ok a
  | b :: l' => a' ← f a b; foldlM f a' l'
  end.

(** [std::vector<A> v(n, a)] with an [int] count [n]. *)
Definition vector_new {A : Type} (n : Z) (a : A) : result (list A) :=
  if n <? 0 then Fault LengthError else Ok (replicate (Z.to_nat n) a).

(** [v[i]] read and [v[i] = a] with an [int] index [i]; [what] names the
    array in the fault. *)
Definition vector_get {A : Type} (what : string) (v : list A) (i : Z) : result A :=
  if (0 <=? i) && (i <? Z.of_nat (length v)) then
    match v !! Z.to_nat i with
    | Some a => Ok a
    | None => Fault (OutOfBounds what)
    end
  else Fault (OutOfBounds what).

Definition vector_set {A : Type} (what : string) (v : list A) (i : Z) (a : A)
    : result (list A) :=
  if (0 <=? i) && (i <? Z.of_nat (length v)) then Ok (<[Z.to_nat i := a]> v)
  else Fault (OutOfBounds what).

(** ** Rasterizer and frame presenter *)

Definition SYMBOLS : list string := ["░"; "▒"; "▓"; "█"].

(** The blank cell and the far depth the buffers start with. *)
Definition BLANK : string := " ".
Definition FAR : Q := - (1000000000 # 1).

(** ESC [ H *)
Definition CURSOR_HOME : string :=
  String (Ascii.ascii_of_nat 27) "[H".
Definition NEWLINE : string := String (Ascii.ascii_of_nat 10) "".

(** What [render_mesh] leaves behind: the two local buffers as they are
    when the frame is drawn, and the bytes written to [std::cout]. *)
Record Frame : Type := mkFrame {
  screen : list string;
  depth : list Q;
  cout : string
}.

Section Rasterizer.
Local Open Scope float_scope.

(** The body of [for (const Point &p : points)]. *)
Definition render_mesh_body (term_rows term_cols : Z)
    (buf : list string * list Q) (p : Point Q) : result (list string * list Q) :=
  let '(screen, depth) := buf in
  let sx := convert_range (x p) (- MAX_X_Y) MAX_X_Y (lit 0) (of_int term_cols - lit 1) in
  let sy := convert_range (y p) (- MAX_X_Y) MAX_X_Y (lit 0) (of_int term_rows - lit 1) in
  let col := static_cast_int (std_floor sx) in
  let row := static_cast_int (std_floor sy) in
  if (col <? 0)%Z || (col >=? term_cols)%Z || (row <? 0)%Z || (row >=? term_rows)%Z
  then Ok (screen, depth)
  else
    let idx := int_add (int_mul row term_cols) col in
    d ← vector_get "depth" depth idx;
    if Qltb d (z p) then
      depth ← vector_set "depth" depth idx (z p);
      let norm := (z p + MAX_X_Y) / (lit 2 * MAX_X_Y) in
      let shade := static_cast_int (norm * lit 4) in
      let shade := if (shade <? 0)%Z then 0%Z else shade in
      let shade := if (shade >? 3)%Z then 3%Z else shade in
      s ← vector_get "SYMBOLS" SYMBOLS shade;
      screen ← vector_set "screen" screen idx s;
      Ok (screen, depth)
    else Ok (screen, depth).

(** The drawing loops: one row of cells, then all the rows. *)
Definition draw_row (term_cols : Z) (screen : list string) (out : string) (r : Z)
    : result string :=
  out ← foldlM (fun out c =>
                  s ← vector_get "screen" screen (int_add (int_mul r term_cols) c);
                  Ok (out +:+ s))
               out (seqZ 0 term_cols);
  Ok (out +:+ NEWLINE).

Definition draw (term_rows term_cols : Z) (screen : list string) : result string :=
  foldlM (draw_row term_cols screen) CURSOR_HOME (seqZ 0 term_rows).

Definition render_mesh (points : list (Point Q)) (term_rows term_cols : Z)
    : result Frame :=
  screen ← vector_new (int_mul term_rows term_cols) BLANK;
  depth ← vector_new (int_mul term_rows term_cols) FAR;
  '(screen, depth) ← foldlM (render_mesh_body term_rows term_cols) (screen, depth) points;
  out ← draw term_rows term_cols screen;
  Ok (mkFrame screen depth out).
End Rasterizer.


(** ** The main loop *)

(** What [ioctl(STDOUT_FILENO, TIOCGWINSZ, &w)] does: it fails and leaves
    [w] alone, or it stores the two [unsigned short] sizes. *)
Inductive ioctl_outcome : Type :=
| IoctlFailed
| IoctlOk (row col : Z).

Record winsize : Type := mkWinsize { ws_row : Z; ws_col : Z }.

Definition ioctl_TIOCGWINSZ (env : ioctl_outcome) (w : winsize) : winsize :=
  match env with
  | IoctlFailed => w
  | IoctlOk row col => mkWinsize (row mod 2 ^ 16) (col mod 2 ^ 16)
  end.

(** The process after some iterations of [while (true)]: the point
    collection, the frames written to the terminal so far, and the fault
    that ended the process, if one did.  [main] prints nothing else and
    has no other exit: its [return 0] is behind the loop. *)
Record Process : Type := mkProcess {
  points : list (Point Q);
  written : list string;
  ended : option fault
}.

Section Main.
Context `{Libm Q}.
Variable NUM_POINTS : Z.

Definition loop_iteration (w : winsize) (st : Process) : Process :=
  match ended st with
  | Some _ => st
  | None =>
      let points := rotate_mesh (points st) in
      let points := std_sort order_points points in
      match render_mesh points (ws_row w) (ws_col w) with
      | Ok f => mkProcess points (written st ++ [cout f]) None
      | Fault e => mkProcess points (written st) (Some e)
      end
  end.

(** [main], cut after [n] iterations of its loop. *)
Definition main (env : ioctl_outcome) (n : nat) : Process :=
  let w := mkWinsize 0 0 in
  let w := ioctl_TIOCGWINSZ env w in
  let points := init_mesh NUM_POINTS in
  Nat.iter n (loop_iteration w) (mkProcess points [] None).
End Main.

(** ** A rational [Libm], to run the model

    Taylor polynomials for sine and cosine and an integer square root
    with 24 fractional bits. *)
#[export] Instance Q_libm : Libm Q :=
  {| std_sin := fun a => (a - a*a*a/6 + a*a*a*a*a/120)%Q;
     std_cos := fun a => (1 - a*a/2 + a*a*a*a/24)%Q;
     std_sqrt := fun a =>
       (inject_Z (Z.sqrt (Qfloor (a * inject_Z (2 ^ 48)))) / inject_Z (2 ^ 24))%Q |}.

(** ** Vocabulary of the statements *)

(** Terminal dimensions whose cell count is an [int]. *)
Definition dims_ok (term_rows term_cols : Z) : Prop :=
  0 ≤ term_rows ∧ 0 ≤ term_cols ∧ term_rows * term_cols ≤ INT_MAX.

(** The projection of a point: the real-valued screen coordinates, and
    the [col] and [row] the loop body computes from them. *)
Definition screen_x (term_cols : Z) (p : Point Q) : Q :=
  convert_range (x p) (- MAX_X_Y)%fl MAX_X_Y (lit 0) (of_int term_cols - lit 1)%fl.
Definition screen_y (term_rows : Z) (p : Point Q) : Q :=
  convert_range (y p) (- MAX_X_Y)%fl MAX_X_Y (lit 0) (of_int term_rows - lit 1)%fl.
Definition proj_col (term_cols : Z) (p : Point Q) : Z :=
  static_cast_int (std_floor (screen_x term_cols p)).
Definition proj_row (term_rows : Z) (p : Point Q) : Z :=
  static_cast_int (std_floor (screen_y term_rows p)).

(** The bounds test of the loop body. *)
Definition discarded (term_rows term_cols : Z) (p : Point Q) : bool :=
  let col := proj_col term_cols p in
  let row := proj_row term_rows p in
  (col <? 0) || (col >=? term_cols) || (row <? 0) || (row >=? term_rows).

(** The linear index a point is tested at, if it is not discarded. *)
Definition target (term_rows term_cols : Z) (p : Point Q) : option Z :=
  if discarded term_rows term_cols p then None
  else Some (int_add (int_mul (proj_row term_rows p) term_cols) (proj_col term_cols p)).

(** The shade index after clamping and the glyph it selects. *)
Definition shade_of (zv : Q) : Z :=
  let norm := ((zv + MAX_X_Y) / (lit 2 * MAX_X_Y))%fl in
  let shade := static_cast_int (norm * lit 4)%fl in
  let shade := if shade <? 0 then 0 else shade in
  if shade >? 3 then 3 else shade.
Definition glyph_of (zv : Q) : string :=
  nth (Z.to_nat (shade_of zv)) SYMBOLS BLANK.

(** The depth test at a cell, as a pure update of the two buffers. *)
Definition paint (i : nat) (zv : Q) (buf : list string * list Q)
    : list string * list Q :=
  match buf.2 !! i with
  | Some d => if Qltb d zv then (<[i := glyph_of zv]> buf.1, <[i := zv]> buf.2) else buf
  | None => buf
  end.
Definition raster_step (term_rows term_cols : Z) (buf : list string * list Q)
    (p : Point Q) : list string * list Q :=
  match target term_rows term_cols p with
  | Some idx => paint (Z.to_nat idx) (z p) buf
  | None => buf
  end.

(** A point whose index, if it has one, lies inside buffers of [n] cells. *)
Definition safe (n : nat) (term_rows term_cols : Z) (p : Point Q) : Prop :=
  match target term_rows term_cols p with
  | Some idx => 0 ≤ idx < Z.of_nat n
  | None => True
  end.

#[local] Instance safe_dec (n : nat) (term_rows term_cols : Z) (p : Point Q)
  : Decision (safe n term_rows term_cols p).
Proof. unfold safe. destruct (target term_rows term_cols p); apply _. Defined.

(** The floored projection of a point misses the terminal. *)
Definition out_of_view (term_rows term_cols : Z) (p : Point Q) : Prop :=
  Qfloor (screen_x term_cols p) < 0 ∨ term_cols - 1 < Qfloor (screen_x term_cols p) ∨
  Qfloor (screen_y term_rows p) < 0 ∨ term_rows - 1 < Qfloor (screen_y term_rows p).

(** What the depth test has made of cell [i] once the points [l] have been
    processed: the stored depth bounds the [z] of every point of [l] that
    was tested at [i]; the cell is untouched, or it holds the [z] and the
    glyph of such a point, one nearer than [FAR]. *)
Definition cell_inv (term_rows term_cols : Z) (l : list (Point Q))
    (buf : list string * list Q) (i : nat) : Prop :=
  ∃ d g, buf.2 !! i = Some d ∧ buf.1 !! i = Some g ∧
    (∀ q, q ∈ l → target term_rows term_cols q = Some (Z.of_nat i) → (z q <= d)%Q) ∧
    ((d = FAR ∧ g = BLANK) ∨
     (∃ m, m ∈ l ∧ target term_rows term_cols m = Some (Z.of_nat i) ∧
           (FAR < z m)%Q ∧ d = z m ∧ g = glyph_of (z m))).

(** The text the drawing loops write for a glyph buffer. *)
Definition frame_text (term_rows term_cols : Z) (scr : list string) : string :=
  foldl (fun out r =>
           foldl (fun out c => out +:+ default BLANK (scr !! Z.to_nat (r * term_cols + c)))
                 out (seqZ 0 term_cols) +:+ NEWLINE)
        CURSOR_HOME (seqZ 0 term_rows).

(** The text of a frame whose cells are all blank. *)
Definition blank_frame (term_rows term_cols : Z) : string :=
  foldl (fun out _ => foldl (fun out _ => out +:+ BLANK) out (seqZ 0 term_cols) +:+ NEWLINE)
        CURSOR_HOME (seqZ 0 term_rows).

(** One row terminator per row. *)
Definition newlines (term_rows : Z) : string :=
  foldl (fun out _ => out +:+ NEWLINE) "" (seqZ 0 term_rows).

Definition pt (a b c : Q) : Point Q := mkPoint a b c.

(** ** The sampler and the rotation at the reals *)

(** [calculate_pos_z] at [R], with the real square root; the comparison
    [inner < 0] is decided classically. *)
Definition calculate_pos_z_real (x y : R) : option R :=
  let inner :=
    (pow_2 MINOR_RADIUS - pow_2 (std_sqrt (x * x + y * y) - MAJOR_RADIUS))%fl in
  if Rlt_dec inner (lit 0) then None else Some (std_sqrt inner).

(** The points after [k] frames: [rotate_mesh] applied [k] times. *)
Definition rotate_frames `{Scalar float} `{Libm float} (k : nat)
    (points : list (Point float)) : list (Point float) :=
  Nat.iter k rotate_mesh points.

(** The determinant of a 3x3 matrix (row-major). *)
Definition det3 `{Scalar float} (a : list float) : float :=
  (at9 a 0 * (at9 a 4 * at9 a 8 - at9 a 5 * at9 a 7)
   - at9 a 1 * (at9 a 3 * at9 a 8 - at9 a 5 * at9 a 6)
   + at9 a 2 * (at9 a 3 * at9 a 7 - at9 a 4 * at9 a 6))%fl.

(** ** Cursor addressing and the single-point renderer *)

Definition ESC : string := String (Ascii.ascii_of_nat 27) "".

(** [std::cout << n] for an [int] [n]: its decimal digits, after a minus
    sign when it is negative. *)
Definition print_int (n : Z) : string := pretty n.

(** The three functions return the bytes they write to [std::cout]. *)
Definition clear_screen : string := ESC +:+ "[2J" +:+ ESC +:+ "[H".

Definition print_at_pos (row col : Z) (c : Ascii.ascii) : string :=
  ESC +:+ "[" +:+ print_int row +:+ ";" +:+ print_int col +:+ "H" +:+ String c "".

(** An [int] passed for a [float] parameter, as binary32 holds it: 24
    significant bits, rounded to the nearest, ties to the even one.  So
    16777219 becomes 16777220 and [INT_MAX] becomes 2^31. *)
Definition float_of_int (n : Z) : Q :=
  let a := Z.abs n in
  if a <? 2 ^ 24 then inject_Z n
  else
    let e := Z.log2 a - 23 in
    let m := a / 2 ^ e in
    let rem := a mod 2 ^ e in
    let half := 2 ^ (e - 1) in
    let m' := if (half <? rem) || ((rem =? half) && Z.odd m) then m + 1 else m in
    inject_Z (Z.sgn n * (m' * 2 ^ e)).

(** The sizes reach [convert_range] through its [float] parameters. *)
Definition render_point (p : Point Q) (term_rows term_cols : Z) : string :=
  let xs := convert_range (x p) (- MAX_X_Y)%fl MAX_X_Y
              (float_of_int 0) (float_of_int term_cols) in
  let ys := convert_range (y p) (- MAX_X_Y)%fl MAX_X_Y
              (float_of_int 0) (float_of_int term_rows) in
  let term_x := static_cast_int (std_floor xs) in
  let term_y := static_cast_int (std_floor ys) in
  print_at_pos term_y term_x "%"%char.

(** The characters [print_int] writes: decimal digits and the minus sign. *)
Definition int_char (a : ascii) : bool :=
  match a with
  | "0" | "1" | "2" | "3" | "4" | "5" | "6" | "7" | "8" | "9" | "-" => true
  | _ => false
  end%char.

Fixpoint all_int_chars (s : string) : bool :=
  match s with
  | EmptyString => true
  | String a s' => int_char a && all_int_chars s'
  end.

(** ** The layout of a frame and the matrix of several frames *)

Definition concat_strings (l : list string) : string := foldr String.append "" l.

(** The glyphs of row [r], left to right, and the row terminator. *)
Definition row_text (term_cols : Z) (scr : list string) (r : Z) : string :=
  concat_strings
    ((fun c => default BLANK (scr !! Z.to_nat (r * term_cols + c))) <$> seqZ 0 term_cols)
  +:+ NEWLINE.

(** The matrix of [k] rotations by [ROT]. *)
Fixpoint mat_pow `{Scalar float} (a : list float) (k : nat) : list float :=
  match k with
  | O => identity
  | S k' => mat_mul a (mat_pow a k')
  end.

(** * Properties *)

(** ** Comparison, integers and conversions *)

Lemma Qltb_lt (a b : Q) : Qltb a b = true ↔ (a < b)%Q.
Proof.
  unfold Qltb. rewrite Qlt_alt. destruct (a ?= b)%Q; split; congruence.
Qed.

Lemma Qltb_ge (a b : Q) : Qltb a b = false ↔ (b <= a)%Q.
Proof.
  rewrite <- not_true_iff_false, Qltb_lt. split.
  - apply Qnot_lt_le.
  - apply Qle_not_lt.
Qed.

Lemma Qltb_comp (a a' b b' : Q) : a == a' → b == b' → Qltb a b = Qltb a' b'.
Proof. intros Ha Hb. unfold Qltb. now rewrite Ha, Hb. Qed.

Lemma Qtrunc_comp (a b : Q) : a == b → Qtrunc a = Qtrunc b.
Proof.
  intros Hab. unfold Qtrunc.
  rewrite (Qltb_comp a b 0 0 Hab (Qeq_refl 0)).
  destruct (Qltb b 0).
  - now apply Qceiling_comp.
  - now apply Qfloor_comp.
Qed.

Lemma Qtrunc_Z (n : Z) : Qtrunc (inject_Z n) = n.
Proof.
  unfold Qtrunc. destruct (Qltb _ _); [apply Qceiling_Z | apply Qfloor_Z].
Qed.

Lemma static_cast_int_comp (a b : Q) : a == b → static_cast_int a = static_cast_int b.
Proof. intros Hab. unfold static_cast_int. now rewrite (Qtrunc_comp a b Hab). Qed.

Lemma wrap_int_id (n : Z) : INT_MIN ≤ n ≤ INT_MAX → wrap_int n = n.
Proof.
  unfold wrap_int, INT_MIN, INT_MAX. intros Hn.
  rewrite Z.mod_small; lia.
Qed.

Lemma wrap_int_range (n : Z) : INT_MIN ≤ wrap_int n ≤ INT_MAX.
Proof.
  unfold wrap_int, INT_MIN, INT_MAX.
  pose proof (Z.mod_pos_bound (n + 2 ^ 31) (2 ^ 32)). lia.
Qed.

Lemma in_int_spec (n : Z) : in_int n = true ↔ INT_MIN ≤ n ≤ INT_MAX.
Proof. unfold in_int. rewrite andb_true_iff, !Z.leb_le. tauto. Qed.

Lemma static_cast_int_range (q : Q) : INT_MIN ≤ static_cast_int q ≤ INT_MAX.
Proof.
  unfold static_cast_int.
  destruct (in_int _) eqn:E.
  - now apply in_int_spec.
  - unfold INT_MIN, INT_MAX. lia.
Qed.

(** The conversion of a floored value: the floor itself when it is an
    [int], [INT_MIN] otherwise. *)
Lemma static_cast_int_floor (q : Q) :
  static_cast_int (std_floor q) = if in_int (Qfloor q) then Qfloor q else INT_MIN.
Proof.
  unfold static_cast_int, std_floor. now rewrite Qtrunc_Z.
Qed.

Lemma shade_of_range (zv : Q) : 0 ≤ shade_of zv ≤ 3.
Proof.
  unfold shade_of.
  destruct (static_cast_int _ <? 0) eqn:E1.
  - simpl. lia.
  - apply Z.ltb_ge in E1.
    destruct (static_cast_int _ >? 3) eqn:E2; [lia|].
    rewrite Z.gtb_ltb in E2. apply Z.ltb_ge in E2. lia.
Qed.

Lemma shade_of_comp (a b : Q) : a == b → shade_of a = shade_of b.
Proof.
  intros Hab. unfold shade_of.
  rewrite (static_cast_int_comp ((a + MAX_X_Y) / (lit 2 * MAX_X_Y) * lit 4)%fl
             ((b + MAX_X_Y) / (lit 2 * MAX_X_Y) * lit 4)%fl); [done|].
  simpl. now rewrite Hab.
Qed.

Lemma glyph_of_comp (a b : Q) : a == b → glyph_of a = glyph_of b.
Proof. intros Hab. unfold glyph_of. now rewrite (shade_of_comp a b Hab). Qed.

(** The clamped shade always selects one of the four symbols. *)
Lemma symbols_get (zv : Q) :
  vector_get "SYMBOLS" SYMBOLS (shade_of zv) = Ok (glyph_of zv) ∧ glyph_of zv ∈ SYMBOLS.
Proof.
  unfold glyph_of. pose proof (shade_of_range zv) as Hr.
  assert (Hc : shade_of zv = 0 ∨ shade_of zv = 1 ∨ shade_of zv = 2 ∨ shade_of zv = 3) by lia.
  destruct Hc as [-> | [-> | [-> | ->]]];
    (split; [reflexivity | apply list_elem_of_In; simpl; tauto]).
Qed.

(** ** The loop body of the rasterizer *)

Lemma vector_get_ok {A : Type} (what : string) (v : list A) (i : Z) :
  0 ≤ i < Z.of_nat (length v) →
  ∃ a, v !! Z.to_nat i = Some a ∧ vector_get what v i = Ok a.
Proof.
  intros Hi. unfold vector_get.
  replace ((0 <=? i) && (i <? Z.of_nat (length v))) with true
    by (symmetry; apply andb_true_iff; split; [apply Z.leb_le | apply Z.ltb_lt]; lia).
  destruct (lookup_lt_is_Some_2 v (Z.to_nat i)) as [a Ha]; [lia|].
  exists a. now rewrite Ha.
Qed.

Lemma vector_get_fault {A : Type} (what : string) (v : list A) (i : Z) :
  ¬ (0 ≤ i < Z.of_nat (length v)) → vector_get what v i = Fault (OutOfBounds what).
Proof.
  intros Hi. unfold vector_get.
  destruct ((0 <=? i) && (i <? Z.of_nat (length v))) eqn:E; [|done].
  apply andb_true_iff in E as [E1 E2]. apply Z.leb_le in E1. apply Z.ltb_lt in E2. lia.
Qed.

Lemma vector_set_ok {A : Type} (what : string) (v : list A) (i : Z) (a : A) :
  0 ≤ i < Z.of_nat (length v) → vector_set what v i a = Ok (<[Z.to_nat i := a]> v).
Proof.
  intros Hi. unfold vector_set.
  replace ((0 <=? i) && (i <? Z.of_nat (length v))) with true; [done|].
  symmetry; apply andb_true_iff; split; [apply Z.leb_le | apply Z.ltb_lt]; lia.
Qed.

(** The loop body, read through [target] and [shade_of]. *)
Lemma render_mesh_body_eq (r c : Z) (scr : list string) (dep : list Q) (p : Point Q) :
  render_mesh_body r c (scr, dep) p =
  match target r c p with
  | None => Ok (scr, dep)
  | Some idx =>
      d ← vector_get "depth" dep idx;
      if Qltb d (z p) then
        dep' ← vector_set "depth" dep idx (z p);
        s ← vector_get "SYMBOLS" SYMBOLS (shade_of (z p));
        scr' ← vector_set "screen" scr idx s;
        Ok (scr', dep')
      else Ok (scr, dep)
  end.
Proof.
  unfold render_mesh_body, target, discarded, proj_col, proj_row, screen_x, screen_y.
  destruct (_ || _); reflexivity.
Qed.

Lemma paint_length (i : nat) (zv : Q) (buf : list string * list Q) :
  length (paint i zv buf).1 = length buf.1 ∧ length (paint i zv buf).2 = length buf.2.
Proof.
  unfold paint. destruct (buf.2 !! i); [|done].
  destruct (Qltb _ _); [|done]. simpl. now rewrite !length_insert.
Qed.

Lemma raster_step_length (r c : Z) (buf : list string * list Q) (p : Point Q) :
  length (raster_step r c buf p).1 = length buf.1 ∧
  length (raster_step r c buf p).2 = length buf.2.
Proof. unfold raster_step. destruct (target r c p); [apply paint_length | done]. Qed.

Lemma render_mesh_body_safe (n : nat) (r c : Z) (buf : list string * list Q) (p : Point Q) :
  length buf.1 = n → length buf.2 = n → safe n r c p →
  render_mesh_body r c buf p = Ok (raster_step r c buf p).
Proof.
  destruct buf as [scr dep]. cbn [fst snd]. intros Hs Hd Hsafe.
  rewrite render_mesh_body_eq. unfold raster_step, safe in *.
  destruct (target r c p) as [idx|]; [|done].
  destruct (vector_get_ok "depth" dep idx) as (d & Hl & ->); [lia|].
  unfold paint. simpl. rewrite Hl.
  destruct (Qltb d (z p)); [|done].
  rewrite vector_set_ok by lia. simpl.
  destruct (symbols_get (z p)) as [-> _]. simpl.
  rewrite vector_set_ok by lia. done.
Qed.

Lemma render_mesh_body_unsafe (n : nat) (r c : Z) (buf : list string * list Q) (p : Point Q) :
  length buf.2 = n → ¬ safe n r c p →
  render_mesh_body r c buf p = Fault (OutOfBounds "depth").
Proof.
  destruct buf as [scr dep]. cbn [fst snd]. intros Hd Hsafe.
  rewrite render_mesh_body_eq. unfold safe in *.
  destruct (target r c p) as [idx|]; [|by destruct Hsafe].
  rewrite (vector_get_fault "depth" dep idx); [reflexivity|]. rewrite Hd. exact Hsafe.
Qed.

(** The whole loop: it returns the pure fold when every point is safe, and
    faults on the depth buffer otherwise. *)
Lemma render_loop_safe (n : nat) (r c : Z) (pts : list (Point Q)) (buf : list string * list Q) :
  length buf.1 = n → length buf.2 = n → Forall (safe n r c) pts →
  foldlM (render_mesh_body r c) buf pts = Ok (foldl (raster_step r c) buf pts).
Proof.
  intros Hs Hd Hall. revert buf Hs Hd.
  induction Hall as [|p pts Hp _ IH]; intros buf Hs Hd; [done|].
  simpl. rewrite (render_mesh_body_safe n) by done. simpl.
  destruct (raster_step_length r c buf p) as [E1 E2].
  apply IH; congruence.
Qed.

Lemma render_loop_unsafe (n : nat) (r c : Z) (pts : list (Point Q)) (buf : list string * list Q) :
  length buf.1 = n → length buf.2 = n → ¬ Forall (safe n r c) pts →
  foldlM (render_mesh_body r c) buf pts = Fault (OutOfBounds "depth").
Proof.
  revert buf. induction pts as [|p pts IH]; intros buf Hs Hd Hall.
  - destruct Hall. constructor.
  - simpl. destruct (decide (safe n r c p)) as [Hp|Hp].
    + rewrite (render_mesh_body_safe n) by done. simpl.
      destruct (raster_step_length r c buf p) as [E1 E2].
      apply IH; [congruence | congruence |].
      intros Hrest. apply Hall. now constructor.
    + now rewrite (render_mesh_body_unsafe n).
Qed.

Lemma foldl_raster_length (r c : Z) (pts : list (Point Q)) (buf : list string * list Q) :
  length (foldl (raster_step r c) buf pts).1 = length buf.1 ∧
  length (foldl (raster_step r c) buf pts).2 = length buf.2.
Proof.
  revert buf. induction pts as [|p pts IH]; intros buf; [done|].
  simpl. destruct (IH (raster_step r c buf p)) as [E1 E2].
  destruct (raster_step_length r c buf p) as [E3 E4]. split; congruence.
Qed.

(** ** The depth test, cell by cell *)

Lemma cell_inv_init (r c : Z) (n i : nat) :
  (i < n)%nat → cell_inv r c [] (replicate n BLANK, replicate n FAR) i.
Proof.
  intros Hi. exists FAR, BLANK. simpl.
  rewrite !lookup_replicate_2 by done.
  repeat split; [|by left].
  intros q Hq. by apply elem_of_nil in Hq.
Qed.

Lemma cell_inv_step (n : nat) (r c : Z) (l : list (Point Q)) (buf : list string * list Q)
    (p : Point Q) (i : nat) :
  length buf.1 = n → length buf.2 = n → safe n r c p → (i < n)%nat →
  cell_inv r c l buf i → cell_inv r c (l ++ [p]) (raster_step r c buf p) i.
Proof.
  intros Hs Hd Hsafe Hi (d & g & Hdi & Hgi & Hmax & Hcase).
  assert (Hkeep : ∀ d' g', buf.2 !! i = Some d' → buf.1 !! i = Some g' → d' = d ∧ g' = g)
    by (intros; split; congruence).
  unfold raster_step, safe in *.
  destruct (target r c p) as [idx|] eqn:Ht.
  - destruct (decide (Z.to_nat idx = i)) as [<-|Hne].
    + (* the point is tested at this cell *)
      unfold paint. rewrite Hdi.
      destruct (Qltb d (z p)) eqn:Hlt.
      * apply Qltb_lt in Hlt.
        exists (z p), (glyph_of (z p)). simpl.
        rewrite !list_lookup_insert_eq by lia.
        repeat split.
        -- intros q Hq Hqt. apply elem_of_app in Hq as [Hq|Hq].
           ++ apply Qlt_le_weak. eapply Qle_lt_trans; [now apply Hmax | done].
           ++ apply list_elem_of_singleton in Hq as ->. apply Qle_refl.
        -- right. exists p. repeat split.
           ++ apply elem_of_app. right. by apply list_elem_of_singleton.
           ++ rewrite Ht. f_equal. lia.
           ++ destruct Hcase as [[-> _] | (m & _ & _ & Hm & -> & _)]; [done|].
              by eapply Qlt_trans.
      * apply Qltb_ge in Hlt.
        exists d, g. repeat split; [done | done | |].
        -- intros q Hq Hqt. apply elem_of_app in Hq as [Hq|Hq]; [now apply Hmax|].
           by apply list_elem_of_singleton in Hq as ->.
        -- destruct Hcase as [Hc | (m & Hm & Hrest)]; [by left|].
           right. exists m. split; [|done]. apply elem_of_app. by left.
    + (* the point is tested at another cell *)
      assert (Hbuf : (paint (Z.to_nat idx) (z p) buf).2 !! i = Some d ∧
                     (paint (Z.to_nat idx) (z p) buf).1 !! i = Some g).
      { unfold paint. destruct (buf.2 !! Z.to_nat idx); [|done].
        destruct (Qltb _ _); [|done]. simpl.
        by rewrite !list_lookup_insert_ne. }
      destruct Hbuf as [Hb1 Hb2].
      exists d, g. repeat split; [done | done | |].
      * intros q Hq Hqt. apply elem_of_app in Hq as [Hq|Hq]; [now apply Hmax|].
        apply list_elem_of_singleton in Hq as ->.
        rewrite Ht in Hqt. injection Hqt as ->. lia.
      * destruct Hcase as [Hc | (m & Hm & Hrest)]; [by left|].
        right. exists m. split; [|done]. apply elem_of_app. by left.
  - exists d, g. repeat split; [done | done | |].
    + intros q Hq Hqt. apply elem_of_app in Hq as [Hq|Hq]; [now apply Hmax|].
      apply list_elem_of_singleton in Hq as ->. congruence.
    + destruct Hcase as [Hc | (m & Hm & Hrest)]; [by left|].
      right. exists m. split; [|done]. apply elem_of_app. by left.
Qed.

Lemma cell_inv_fold (n : nat) (r c : Z) (pts l : list (Point Q)) (buf : list string * list Q) :
  length buf.1 = n → length buf.2 = n → Forall (safe n r c) pts →
  (∀ i, (i < n)%nat → cell_inv r c l buf i) →
  ∀ i, (i < n)%nat → cell_inv r c (l ++ pts) (foldl (raster_step r c) buf pts) i.
Proof.
  intros Hs Hd Hall. revert l buf Hs Hd.
  induction Hall as [|p pts Hp _ IH]; intros l buf Hs Hd Hinv i Hi.
  - rewrite app_nil_r. now apply Hinv.
  - simpl. rewrite (cons_middle p l pts), app_assoc.
    destruct (raster_step_length r c buf p) as [E1 E2].
    apply IH; [congruence | congruence | | done].
    intros j Hj. apply (cell_inv_step n); auto.
Qed.

(** The buffers after the loop, started from blank cells at depth [FAR]. *)
Lemma cell_inv_final (n : nat) (r c : Z) (pts : list (Point Q)) (i : nat) :
  Forall (safe n r c) pts → (i < n)%nat →
  cell_inv r c pts
    (foldl (raster_step r c) (replicate n BLANK, replicate n FAR) pts) i.
Proof.
  intros Hall Hi.
  apply (cell_inv_fold n r c pts [] (replicate n BLANK, replicate n FAR));
    simpl; rewrite ?length_replicate; try done.
  intros j Hj. now apply cell_inv_init.
Qed.

(** ** Dimensions, the drawing loops and the shape of [render_mesh] *)

Lemma foldlM_ok {A B : Type} (f : A → B → result A) (g : A → B → A) (l : list B) (a : A) :
  (∀ a b, b ∈ l → f a b = Ok (g a b)) → foldlM f a l = Ok (foldl g a l).
Proof.
  revert a. induction l as [|b l IH]; intros a Hf; [done|].
  simpl. rewrite Hf by (by left). simpl. apply IH.
  intros a' b' Hb'. apply Hf. by right.
Qed.

Lemma foldlM_ext {A B : Type} (f g : A → B → result A) (l : list B) (a : A) :
  (∀ a b, b ∈ l → f a b = g a b) → foldlM f a l = foldlM g a l.
Proof.
  revert a. induction l as [|b l IH]; intros a Hf; [done|].
  simpl. rewrite Hf by (by left). destruct (g a b); [|done]. simpl. apply IH.
  intros a' b' Hb'. apply Hf. by right.
Qed.

Lemma dims_ok_cells (r c : Z) : dims_ok r c → int_mul r c = r * c ∧ 0 ≤ r * c.
Proof.
  intros (Hr & Hc & Hrc). split; [|nia].
  apply wrap_int_id. unfold INT_MIN. nia.
Qed.

(** Inside the bounds test the linear index is [row * cols + col], without
    wrap-around, and lies inside the buffers. *)
Lemma cell_index_ok (r c row col : Z) :
  dims_ok r c → 0 ≤ row < r → 0 ≤ col < c →
  int_add (int_mul row c) col = row * c + col ∧ 0 ≤ row * c + col < r * c.
Proof.
  intros (Hr & Hc & Hrc) Hrow Hcol.
  assert (Hb : 0 ≤ row * c + col < r * c) by nia.
  assert (Hb' : 0 ≤ row * c ≤ INT_MAX) by nia.
  split; [|done]. unfold int_add, int_mul.
  rewrite (wrap_int_id (row * c)) by (unfold INT_MIN; lia).
  apply wrap_int_id. unfold INT_MIN. lia.
Qed.

Lemma target_Some (r c : Z) (p : Point Q) (idx : Z) :
  target r c p = Some idx →
  0 ≤ proj_row r p < r ∧ 0 ≤ proj_col c p < c ∧
  idx = int_add (int_mul (proj_row r p) c) (proj_col c p).
Proof.
  unfold target, discarded. intros Ht.
  destruct (_ || _) eqn:E; [done|].
  injection Ht as <-.
  rewrite !orb_false_iff in E. destruct E as [[[E1 E2] E3] E4].
  apply Z.ltb_ge in E1, E3. rewrite Z.geb_leb in E2, E4.
  apply Z.leb_gt in E2, E4. lia.
Qed.

Lemma dims_ok_safe (r c : Z) (p : Point Q) :
  dims_ok r c → safe (Z.to_nat (r * c)) r c p.
Proof.
  intros Hok. unfold safe. destruct (target r c p) as [idx|] eqn:Ht; [|done].
  apply target_Some in Ht as (Hrow & Hcol & ->).
  destruct (cell_index_ok r c _ _ Hok Hrow Hcol) as [-> Hb]. lia.
Qed.

Lemma draw_ok (r c : Z) (scr : list string) :
  dims_ok r c → length scr = Z.to_nat (r * c) →
  draw r c scr = Ok (frame_text r c scr).
Proof.
  intros Hok Hlen. unfold draw, frame_text.
  apply foldlM_ok. intros out r' Hr'. apply elem_of_seqZ in Hr'.
  unfold draw_row.
  rewrite (foldlM_ok _ (fun out c' => out +:+ default BLANK (scr !! Z.to_nat (r' * c + c')))).
  { done. }
  intros out' c' Hc'. apply elem_of_seqZ in Hc'.
  destruct (cell_index_ok r c r' c' Hok) as [-> Hb]; [lia | lia |].
  destruct (vector_get_ok "screen" scr (r' * c + c')) as (s & Hl & ->); [lia|].
  simpl. now rewrite Hl.
Qed.

Lemma render_mesh_unfold (pts : list (Point Q)) (r c : Z) :
  render_mesh pts r c =
  if int_mul r c <? 0 then Fault LengthError
  else
    let n := Z.to_nat (int_mul r c) in
    let buf := foldl (raster_step r c) (replicate n BLANK, replicate n FAR) pts in
    if decide (Forall (safe n r c) pts)
    then out ← draw r c buf.1; Ok (mkFrame buf.1 buf.2 out)
    else Fault (OutOfBounds "depth").
Proof.
  unfold render_mesh, vector_new.
  destruct (int_mul r c <? 0); [done|]. simpl.
  destruct (decide _) as [Hall|Hall].
  - rewrite (render_loop_safe (Z.to_nat (int_mul r c)));
      simpl; rewrite ?length_replicate; try done.
    simpl. now destruct (foldl _ _ _).
  - rewrite (render_loop_unsafe (Z.to_nat (int_mul r c)));
      simpl; rewrite ?length_replicate; done.
Qed.

(** With a cell count that is an [int], [render_mesh] returns, for every
    point collection. *)
Lemma render_mesh_dims_ok (pts : list (Point Q)) (r c : Z) :
  dims_ok r c →
  let n := Z.to_nat (r * c) in
  let buf := foldl (raster_step r c) (replicate n BLANK, replicate n FAR) pts in
  render_mesh pts r c = Ok (mkFrame buf.1 buf.2 (frame_text r c buf.1)).
Proof.
  intros Hok. rewrite render_mesh_unfold.
  destruct (dims_ok_cells r c Hok) as [-> Hpos].
  replace (r * c <? 0) with false by (symmetry; apply Z.ltb_ge; lia).
  cbv zeta. rewrite decide_True by (apply Forall_forall; intros; by apply dims_ok_safe).
  rewrite draw_ok; [done | done |].
  destruct (foldl_raster_length r c pts
              (replicate (Z.to_nat (r * c)) BLANK, replicate (Z.to_nat (r * c)) FAR)) as [-> _].
  simpl. apply length_replicate.
Qed.

(** What a returned frame tells about the run. *)
Lemma render_mesh_Ok (pts : list (Point Q)) (r c : Z) (f : Frame) :
  render_mesh pts r c = Ok f →
  let n := Z.to_nat (int_mul r c) in
  let buf := foldl (raster_step r c) (replicate n BLANK, replicate n FAR) pts in
  Forall (safe n r c) pts ∧ screen f = buf.1 ∧ depth f = buf.2 ∧
  length (screen f) = n ∧ length (depth f) = n ∧
  draw r c (screen f) = Ok (cout f).
Proof.
  rewrite render_mesh_unfold.
  destruct (int_mul r c <? 0); [done|]. cbv zeta.
  destruct (decide _) as [Hall|Hall]; [|done].
  destruct (draw _ _ _) as [out|] eqn:Hdraw; [|done]. simpl.
  intros [= <-]. simpl.
  destruct (foldl_raster_length r c pts
              (replicate (Z.to_nat (int_mul r c)) BLANK,
               replicate (Z.to_nat (int_mul r c)) FAR)) as [E1 E2].
  cbn [fst snd] in E1, E2. rewrite length_replicate in E1. rewrite length_replicate in E2.
  repeat split; done.
Qed.

(** ** C1: the depth test *)

(** A returned frame satisfies the cell invariant at every cell. *)
Lemma render_mesh_cell_inv (pts : list (Point Q)) (r c : Z) (f : Frame) (i : nat) :
  render_mesh pts r c = Ok f → (i < length (screen f))%nat →
  cell_inv r c pts (screen f, depth f) i.
Proof.
  intros Hf Hi. apply render_mesh_Ok in Hf as (Hall & Hs & Hd & Hl & _ & _).
  cbv zeta in Hall, Hs, Hd, Hl. rewrite Hl in Hi. rewrite Hs, Hd.
  rewrite <- surjective_pairing. now apply cell_inv_final.
Qed.

(** C1 (as amended).  The loop body overwrites the depth and the glyph of
    the cell a point is tested at exactly when the point's [z] is strictly
    greater than the stored depth, and otherwise (ties included) leaves
    both buffers as they are.  Consequently, in a returned frame, a cell
    that some point nearer than the initial depth [FAR] was tested at
    holds the greatest [z] among all the points tested at it and the glyph
    of that [z], in whatever order the points come; a cell with no such
    point still holds [FAR] and the blank. *)
Theorem depth_test_nearest_wins (r c : Z) :
  (∀ (scr : list string) (dep : list Q) (p : Point Q) (idx : Z) (d : Q),
      length scr = length dep → target r c p = Some idx →
      0 ≤ idx < Z.of_nat (length dep) → dep !! Z.to_nat idx = Some d →
      ((d < z p)%Q →
         render_mesh_body r c (scr, dep) p =
         Ok (<[Z.to_nat idx := glyph_of (z p)]> scr, <[Z.to_nat idx := z p]> dep)) ∧
      ((z p <= d)%Q → render_mesh_body r c (scr, dep) p = Ok (scr, dep))) ∧
  (∀ (pts : list (Point Q)) (f : Frame) (a : Point Q) (idx : Z),
      render_mesh pts r c = Ok f →
      a ∈ pts → target r c a = Some idx → (FAR < z a)%Q →
      ∃ m, m ∈ pts ∧ target r c m = Some idx ∧
           depth f !! Z.to_nat idx = Some (z m) ∧
           screen f !! Z.to_nat idx = Some (glyph_of (z m)) ∧
           ∀ q, q ∈ pts → target r c q = Some idx → (z q <= z m)%Q) ∧
  (∀ (pts : list (Point Q)) (f : Frame) (i : nat),
      render_mesh pts r c = Ok f → (i < length (screen f))%nat →
      (∀ q, q ∈ pts → target r c q = Some (Z.of_nat i) → (z q <= FAR)%Q) →
      depth f !! i = Some FAR ∧ screen f !! i = Some BLANK).
Proof.
  split; [|split].
  - intros scr dep p idx d Hlen Ht Hidx Hd.
    assert (Hsafe : safe (length dep) r c p) by (unfold safe; now rewrite Ht).
    rewrite (render_mesh_body_safe (length dep)) by done.
    unfold raster_step, paint. rewrite Ht. simpl. rewrite Hd. split.
    + intros Hlt. apply Qltb_lt in Hlt. now rewrite Hlt.
    + intros Hge. apply Qltb_ge in Hge. now rewrite Hge.
  - intros pts f a idx Hf Ha Hta Hfar.
    pose proof (render_mesh_Ok _ _ _ _ Hf) as (Hall & _ & _ & Hl & _ & _).
    cbv zeta in Hall, Hl.
    assert (Hidx : 0 ≤ idx < Z.of_nat (Z.to_nat (int_mul r c))).
    { rewrite Forall_forall in Hall. specialize (Hall a Ha).
      unfold safe in Hall. now rewrite Hta in Hall. }
    destruct (render_mesh_cell_inv pts r c f (Z.to_nat idx) Hf)
      as (d & g & Hd & Hg & Hmax & Hcase); [lia|].
    simpl in Hd, Hg. rewrite Z2Nat.id in Hmax, Hcase by lia.
    destruct Hcase as [[-> _] | (m & Hm & Htm & _ & -> & ->)].
    + exfalso. apply (Qlt_not_le _ _ Hfar). now apply Hmax.
    + exists m. repeat split; done.
  - intros pts f i Hf Hi Hnone.
    destruct (render_mesh_cell_inv pts r c f i Hf Hi)
      as (d & g & Hd & Hg & Hmax & Hcase).
    simpl in Hd, Hg.
    destruct Hcase as [[-> ->] | (m & Hm & Htm & Hfar & _)]; [done|].
    exfalso. apply (Qlt_not_le _ _ Hfar). now apply Hnone.
Qed.

Lemma depth_test_nearest_wins_witness :
  let a := pt 0 0 (1 # 2) in
  let b := pt 0 0 (- (1 # 2)) in
  ∃ f m, render_mesh [b; a] 3 4 = Ok f ∧ m ∈ [b; a] ∧
         depth f !! Z.to_nat 5 = Some (z m) ∧
         screen f !! Z.to_nat 5 = Some (glyph_of (z m)).
Proof.
  intros a b.
  destruct (depth_test_nearest_wins 3 4) as (_ & Hfinal & _).
  assert (Hf : ∃ f, render_mesh [b; a] 3 4 = Ok f)
    by (eexists; vm_compute; reflexivity).
  destruct Hf as [f Hf].
  destruct (Hfinal [b; a] f a 5 Hf) as (m & Hm & _ & Hd & Hg & _).
  - apply list_elem_of_In. simpl. tauto.
  - vm_compute. reflexivity.
  - vm_compute. reflexivity.
  - exists f, m. repeat split; assumption.
Defined.

(** C1, as stated, fails below the initial depth: two points tested at the
    same cell, both farther than [FAR], leave the cell at [FAR] and blank
    in either order, so the stored depth is not their maximum and the glyph
    is not the nearer point's. *)
Lemma depth_test_counterexample :
  let a := pt 0 0 (- (2000000000 # 1)) in
  let b := pt 0 0 (- (3000000000 # 1)) in
  target 2 2 a = Some 0 ∧ target 2 2 b = Some 0 ∧ (z b < z a)%Q ∧
  ∃ f, render_mesh [a; b] 2 2 = Ok f ∧ render_mesh [b; a] 2 2 = Ok f ∧
       depth f !! 0%nat = Some FAR ∧ ¬ (FAR == z a) ∧
       screen f !! 0%nat = Some BLANK ∧ glyph_of (z a) ≠ BLANK.
Proof.
  intros a b. split; [reflexivity|]. split; [reflexivity|]. split; [reflexivity|].
  eexists. split; [vm_compute; reflexivity|].
  split; [vm_compute; reflexivity|].
  split; [reflexivity|]. split; [intros E; discriminate E|].
  split; [reflexivity|]. vm_compute. discriminate.
Qed.

(** ** C3: the order of the points does not matter *)

Lemma sort_insert_perm (comp : Point Q → Point Q → bool) (p : Point Q) (l : list (Point Q)) :
  sort_insert comp p l ≡ₚ p :: l.
Proof.
  induction l as [|q l IH]; [done|]. simpl.
  destruct (comp q p); [|done].
  rewrite IH. apply perm_swap.
Qed.

Lemma std_sort_perm (comp : Point Q → Point Q → bool) (l : list (Point Q)) :
  std_sort comp l ≡ₚ l.
Proof.
  unfold std_sort. induction l as [|p l IH]; [done|]. simpl.
  rewrite sort_insert_perm. now rewrite IH.
Qed.

(** Two runs of the loop over the same points, in any two orders, leave the
    same glyph in every cell. *)
Lemma raster_screen_perm (n : nat) (r c : Z) (pts pts' : list (Point Q)) :
  pts ≡ₚ pts' → Forall (safe n r c) pts →
  (foldl (raster_step r c) (replicate n BLANK, replicate n FAR) pts).1 =
  (foldl (raster_step r c) (replicate n BLANK, replicate n FAR) pts').1.
Proof.
  intros Hperm Hall.
  assert (Hall' : Forall (safe n r c) pts') by now rewrite <- Hperm.
  destruct (foldl_raster_length r c pts (replicate n BLANK, replicate n FAR)) as [L1 _].
  destruct (foldl_raster_length r c pts' (replicate n BLANK, replicate n FAR)) as [L2 _].
  cbn [fst snd] in L1, L2. rewrite length_replicate in L1. rewrite length_replicate in L2.
  apply list_eq. intros i.
  destruct (decide (i < n)%nat) as [Hi|Hi].
  - destruct (cell_inv_final n r c pts i Hall Hi) as (d & g & _ & -> & Hmax & Hcase).
    destruct (cell_inv_final n r c pts' i Hall' Hi) as (d' & g' & _ & -> & Hmax' & Hcase').
    f_equal.
    destruct Hcase as [[-> ->] | (m & Hm & Htm & Hfar & -> & ->)];
      destruct Hcase' as [[-> ->] | (m' & Hm' & Htm' & Hfar' & -> & ->)].
    + done.
    + exfalso. apply (Qlt_not_le _ _ Hfar'). apply Hmax; [|done]. now rewrite Hperm.
    + exfalso. apply (Qlt_not_le _ _ Hfar). apply Hmax'; [|done]. now rewrite <- Hperm.
    + apply glyph_of_comp. apply Qle_antisym.
      * apply Hmax'; [|done]. now rewrite <- Hperm.
      * apply Hmax; [|done]. now rewrite Hperm.
  - rewrite !lookup_ge_None_2; [done | |]; lia.
Qed.

(** C3.  The glyph buffer and the text written by [render_mesh] (or the
    fault that ends it) are the same for every permutation of the point
    collection; in particular they are the same for the collection sorted
    by [std::sort] with [order_points] and for the unsorted one. *)
Theorem render_mesh_order_irrelevant (pts pts' : list (Point Q)) (r c : Z) :
  pts ≡ₚ pts' →
  (screen <$> render_mesh pts r c = screen <$> render_mesh pts' r c ∧
   cout <$> render_mesh pts r c = cout <$> render_mesh pts' r c) ∧
  (screen <$> render_mesh (std_sort order_points pts) r c = screen <$> render_mesh pts r c ∧
   cout <$> render_mesh (std_sort order_points pts) r c = cout <$> render_mesh pts r c).
Proof.
  assert (Hgen : ∀ l l' : list (Point Q), l ≡ₚ l' →
            screen <$> render_mesh l r c = screen <$> render_mesh l' r c ∧
            cout <$> render_mesh l r c = cout <$> render_mesh l' r c).
  { intros l l' Hperm. rewrite !render_mesh_unfold.
    destruct (int_mul r c <? 0); [done|]. cbv zeta.
    set (n := Z.to_nat (int_mul r c)).
    destruct (decide (Forall (safe n r c) l)) as [Hall|Hall].
    - rewrite decide_True by now rewrite <- Hperm.
      rewrite <- (raster_screen_perm n r c l l' Hperm Hall).
      destruct (draw r c _); done.
    - rewrite decide_False by now rewrite <- Hperm.
      done. }
  intros Hperm. split; [now apply Hgen|].
  apply Hgen, std_sort_perm.
Qed.

Lemma render_mesh_order_irrelevant_witness :
  screen <$> render_mesh [pt 0 0 (1 # 2); pt 0 0 (- (1 # 2)); pt (1 # 2) 0 0] 3 4 =
  screen <$> render_mesh [pt (1 # 2) 0 0; pt 0 0 (- (1 # 2)); pt 0 0 (1 # 2)] 3 4.
Proof.
  apply (render_mesh_order_irrelevant
           [pt 0 0 (1 # 2); pt 0 0 (- (1 # 2)); pt (1 # 2) 0 0]
           [pt (1 # 2) 0 0; pt 0 0 (- (1 # 2)); pt 0 0 (1 # 2)] 3 4).
  apply (Permutation_rev [pt 0 0 (1 # 2); pt 0 0 (- (1 # 2)); pt (1 # 2) 0 0]).
Defined.

(** ** C5: every glyph is the blank or a palette symbol *)

Lemma foldlM_fault {A B : Type} (f : A → B → result A) (l : list B) (a : A) (e : fault) :
  foldlM f a l = Fault e → ∃ a' b, f a' b = Fault e.
Proof.
  revert a. induction l as [|b l IH]; intros a; [done|]. simpl.
  destruct (f a b) as [a'|e'] eqn:E; simpl.
  - apply IH.
  - intros [= <-]. eauto.
Qed.

Lemma vector_get_fault_inv {A : Type} (what : string) (v : list A) (i : Z) (e : fault) :
  vector_get what v i = Fault e → e = OutOfBounds what.
Proof.
  unfold vector_get. destruct (_ && _); [destruct (v !! _)|]; congruence.
Qed.

Lemma draw_fault (r c : Z) (scr : list string) (e : fault) :
  draw r c scr = Fault e → e = OutOfBounds "screen".
Proof.
  intros Hd. apply foldlM_fault in Hd as (out & r' & Hrow).
  unfold draw_row in Hrow.
  destruct (foldlM _ out (seqZ 0 c)) as [out'|e'] eqn:E; [done|].
  simpl in Hrow. injection Hrow as ->.
  apply foldlM_fault in E as (out'' & c' & Hget).
  destruct (vector_get "screen" scr _) eqn:Eg; [done|].
  simpl in Hget. injection Hget as ->.
  now apply vector_get_fault_inv in Eg.
Qed.

Lemma paint_glyphs (i : nat) (zv : Q) (buf : list string * list Q) :
  Forall (λ g, g = BLANK ∨ g ∈ SYMBOLS) buf.1 →
  Forall (λ g, g = BLANK ∨ g ∈ SYMBOLS) (paint i zv buf).1.
Proof.
  intros Hall. unfold paint. destruct (buf.2 !! i); [|done].
  destruct (Qltb _ _); [|done]. simpl.
  apply Forall_insert; [done|]. right. apply symbols_get.
Qed.

Lemma raster_glyphs (r c : Z) (pts : list (Point Q)) (buf : list string * list Q) :
  Forall (λ g, g = BLANK ∨ g ∈ SYMBOLS) buf.1 →
  Forall (λ g, g = BLANK ∨ g ∈ SYMBOLS) (foldl (raster_step r c) buf pts).1.
Proof.
  revert buf. induction pts as [|p pts IH]; intros buf Hall; [done|].
  simpl. apply IH. unfold raster_step.
  destruct (target r c p); [now apply paint_glyphs | done].
Qed.

(** C5.  Whatever [z] is, the shade index is clamped into [0, 3] and the
    access to [SYMBOLS] is inside the array; [render_mesh] never faults on
    the palette, and every cell of a buffer it produces holds the blank or
    one of the four symbols. *)
Theorem glyphs_from_palette (pts : list (Point Q)) (r c : Z) :
  (∀ zv : Q, 0 ≤ shade_of zv ≤ 3 ∧
             vector_get "SYMBOLS" SYMBOLS (shade_of zv) = Ok (glyph_of zv) ∧
             glyph_of zv ∈ SYMBOLS) ∧
  render_mesh pts r c ≠ Fault (OutOfBounds "SYMBOLS") ∧
  (∀ f, render_mesh pts r c = Ok f →
        ∀ i g, screen f !! i = Some g → g = BLANK ∨ g ∈ SYMBOLS).
Proof.
  split; [|split].
  - intros zv. split; [apply shade_of_range | apply symbols_get].
  - rewrite render_mesh_unfold.
    destruct (int_mul r c <? 0); [done|]. cbv zeta.
    destruct (decide _); [|done].
    destruct (draw r c _) as [out|e] eqn:E; [done|].
    apply draw_fault in E as ->. done.
  - intros f Hf i g Hg.
    apply render_mesh_Ok in Hf as (_ & Hs & _). cbv zeta in Hs.
    rewrite Hs in Hg.
    assert (Hall : Forall (λ g, g = BLANK ∨ g ∈ SYMBOLS)
              (foldl (raster_step r c)
                 (replicate (Z.to_nat (int_mul r c)) BLANK,
                  replicate (Z.to_nat (int_mul r c)) FAR) pts).1).
    { apply raster_glyphs. simpl. apply Forall_replicate. by left. }
    rewrite Forall_lookup in Hall. exact (Hall i g Hg).
Qed.

Lemma glyphs_from_palette_witness :
  ∃ f, render_mesh [pt 0 0 (5 # 1); pt (1 # 2) 0 (- (5 # 1))] 3 4 = Ok f ∧
       (screen f !! 5%nat = Some "█" ∧ ("█" = BLANK ∨ "█" ∈ SYMBOLS)).
Proof.
  assert (Hf : ∃ f, render_mesh [pt 0 0 (5 # 1); pt (1 # 2) 0 (- (5 # 1))] 3 4 = Ok f)
    by (eexists; vm_compute; reflexivity).
  destruct Hf as [f Hf]. exists f. split; [exact Hf|].
  assert (Hg : screen f !! 5%nat = Some "█").
  { assert (E : Ok f = render_mesh [pt 0 0 (5 # 1); pt (1 # 2) 0 (- (5 # 1))] 3 4)
      by (symmetry; exact Hf).
    vm_compute in E. injection E as ->. reflexivity. }
  split; [exact Hg|].
  exact (proj2 (proj2 (glyphs_from_palette _ 3 4)) f Hf 5%nat "█" Hg).
Defined.

(** ** C6: points projected outside the terminal *)

Lemma proj_axis_cases (q : Q) (bound : Z) :
  let v := static_cast_int (std_floor q) in
  (Qfloor q < 0 ∨ bound - 1 < Qfloor q → (v <? 0) || (v >=? bound) = true) ∧
  (0 ≤ Qfloor q ≤ bound - 1 → bound - 1 ≤ INT_MAX →
     v = Qfloor q ∧ (v <? 0) || (v >=? bound) = false).
Proof.
  cbv zeta. rewrite static_cast_int_floor. split.
  - intros Hout. apply orb_true_iff. rewrite Z.ltb_lt, Z.geb_leb, Z.leb_le.
    destruct (in_int (Qfloor q)); [lia|]. left. unfold INT_MIN. lia.
  - intros Hin Hb.
    replace (in_int (Qfloor q)) with true
      by (symmetry; apply in_int_spec; unfold INT_MIN; lia).
    split; [done|]. apply orb_false_iff. rewrite Z.ltb_ge, Z.geb_leb, Z.leb_gt. lia.
Qed.

Lemma out_of_view_discarded (r c : Z) (p : Point Q) :
  out_of_view r c p → discarded r c p = true.
Proof.
  unfold out_of_view, discarded, proj_col, proj_row. intros Hout.
  destruct (proj_axis_cases (screen_x c p) c) as [Hc _].
  destruct (proj_axis_cases (screen_y r p) r) as [Hr _].
  cbv zeta in Hc, Hr.
  rewrite <- orb_assoc.
  destruct Hout as [Ho | [Ho | Ho]].
  - rewrite Hc by lia. done.
  - rewrite Hc by lia. done.
  - rewrite Hr by lia. apply orb_true_r.
Qed.

Lemma foldlM_app {A B : Type} (f : A → B → result A) (l1 l2 : list B) (a : A) :
  foldlM f a (l1 ++ l2) = a' ← foldlM f a l1; foldlM f a' l2.
Proof.
  revert a. induction l1 as [|b l1 IH]; intros a; [done|].
  simpl. destruct (f a b); [|done]. simpl. apply IH.
Qed.

Lemma screen_axis_in_domain (v : Q) (bound : Z) :
  (- MAX_X_Y <= v)%Q → (v <= MAX_X_Y)%Q → 1 ≤ bound →
  0 ≤ Qfloor (convert_range v (- MAX_X_Y)%fl MAX_X_Y (lit 0) (of_int bound - lit 1)%fl)
    ≤ bound - 1.
Proof.
  intros Hlo Hhi Hb.
  set (s := convert_range _ _ _ _ _).
  assert (Hs : (0 <= s)%Q ∧ (s <= inject_Z (bound - 1))%Q).
  { unfold s, convert_range, of_int, MAX_X_Y, MAJOR_RADIUS, MINOR_RADIUS in *. simpl in *.
    assert (Hk : (0 <= inject_Z bound - 1)%Q).
    { rewrite <- (Qplus_opp_r 1). apply Qplus_le_compat; [|apply Qle_refl].
      change 1%Q with (inject_Z 1). rewrite <- Zle_Qle. lia. }
    assert (E : inject_Z (bound - 1) == inject_Z bound - 1).
    { unfold Z.sub. rewrite inject_Z_plus, inject_Z_opp. reflexivity. }
    rewrite E. set (k := (inject_Z bound - 1)%Q) in *.
    clearbody k. clear E s.
    assert (Hv : (0 <= (v + (8 # 10)) * (10 # 16))%Q ∧ ((v + (8 # 10)) * (10 # 16) <= 1)%Q)
      by (split; lra).
    assert (Ht : (v - - (0.6 + 0.2)) / (0.6 + 0.2 - - (0.6 + 0.2)) * (k - 0) + 0
                 == (v + (8 # 10)) * (10 # 16) * k) by (field; discriminate).
    rewrite Ht. set (t := ((v + (8 # 10)) * (10 # 16))%Q) in *. clearbody t.
    split; nra. }
  destruct Hs as [Hs0 Hs1]. split.
  - rewrite <- (Qfloor_Z 0). now apply Qfloor_resp_le.
  - rewrite <- (Qfloor_Z (bound - 1)). now apply Qfloor_resp_le.
Qed.

(** C6.  A point whose floored column lies outside [0, cols-1] or whose
    floored row lies outside [0, rows-1] is skipped by the loop body, which
    returns both buffers as they were and does not fault: rendering with or
    without the point is the same.  A point whose floored column and row
    lie inside is not skipped: the loop body tests it at the cell
    [row * cols + col], with [col] and [row] the floors of the linear
    conversions of its [x] and [y] from [-(R+r), R+r] to [0, cols-1] and
    [0, rows-1], overwriting that cell when the point is nearer than the
    stored depth and nothing else; rendered alone, such a point nearer
    than [FAR] is what the frame shows at that cell.  For sizes up to
    2^24, which [float] holds exactly, every point of the domain lands
    inside. *)
Theorem out_of_view_points_skipped (r c : Z) (p : Point Q) :
  (out_of_view r c p →
     (∀ buf, render_mesh_body r c buf p = Ok buf) ∧
     (∀ pts1 pts2, render_mesh (pts1 ++ p :: pts2) r c = render_mesh (pts1 ++ pts2) r c)) ∧
  (¬ out_of_view r c p → dims_ok r c →
     let idx := Qfloor (screen_y r p) * c + Qfloor (screen_x c p) in
     0 ≤ idx < r * c ∧
     (∀ (scr : list string) (dep : list Q) (d : Q),
        length scr = Z.to_nat (r * c) → length dep = Z.to_nat (r * c) →
        dep !! Z.to_nat idx = Some d →
        ((d < z p)%Q →
           render_mesh_body r c (scr, dep) p =
           Ok (<[Z.to_nat idx := glyph_of (z p)]> scr, <[Z.to_nat idx := z p]> dep)) ∧
        ((z p <= d)%Q → render_mesh_body r c (scr, dep) p = Ok (scr, dep))) ∧
     ((FAR < z p)%Q →
        ∃ f, render_mesh [p] r c = Ok f ∧
             screen f !! Z.to_nat idx = Some (glyph_of (z p)) ∧
             depth f !! Z.to_nat idx = Some (z p))) ∧
  ((- MAX_X_Y <= x p)%Q → (x p <= MAX_X_Y)%Q → 1 ≤ c ≤ 2 ^ 24 →
     0 ≤ Qfloor (screen_x c p) ≤ c - 1) ∧
  ((- MAX_X_Y <= y p)%Q → (y p <= MAX_X_Y)%Q → 1 ≤ r ≤ 2 ^ 24 →
     0 ≤ Qfloor (screen_y r p) ≤ r - 1).
Proof.
  split; [|split; [|split]].
  - intros Hout.
    assert (Hbody : ∀ buf, render_mesh_body r c buf p = Ok buf).
    { intros [scr dep]. rewrite render_mesh_body_eq. unfold target.
      now rewrite (out_of_view_discarded r c p Hout). }
    split; [exact Hbody|].
    intros pts1 pts2. unfold render_mesh.
    destruct (vector_new (int_mul r c) BLANK) as [scr|]; [|done].
    destruct (vector_new (int_mul r c) FAR) as [dep|]; [|done]. simpl.
    rewrite !foldlM_app.
    destruct (foldlM (render_mesh_body r c) (scr, dep) pts1) as [buf|]; [|done].
    simpl. now rewrite Hbody.
  - intros Hin Hok. unfold out_of_view in Hin.
    assert (Hcolr : 0 ≤ Qfloor (screen_x c p) < c) by lia.
    assert (Hrowr : 0 ≤ Qfloor (screen_y r p) < r) by lia.
    assert (Hsize : r - 1 ≤ INT_MAX ∧ c - 1 ≤ INT_MAX)
      by (destruct Hok as (Hr & Hc & Hrc); nia).
    destruct (proj_axis_cases (screen_x c p) c) as [_ Hcol].
    destruct (proj_axis_cases (screen_y r p) r) as [_ Hrow].
    cbv zeta in Hcol, Hrow.
    destruct Hcol as [Ec Ec']; [lia | lia |].
    destruct Hrow as [Er Er']; [lia | lia |].
    fold (proj_col c p) in Ec, Ec'. fold (proj_row r p) in Er, Er'.
    destruct (cell_index_ok r c _ _ Hok Hrowr Hcolr) as [Eidx Hidx].
    assert (Ht : target r c p =
                 Some (Qfloor (screen_y r p) * c + Qfloor (screen_x c p))).
    { unfold target, discarded. cbv zeta.
      rewrite <- orb_assoc, Ec', Er'. simpl. now rewrite Ec, Er, Eidx. }
    cbv zeta. set (idx := Qfloor (screen_y r p) * c + Qfloor (screen_x c p)) in *.
    assert (Hsafe : safe (Z.to_nat (r * c)) r c p)
      by (unfold safe; rewrite Ht; lia).
    assert (Hstep : ∀ scr dep d,
              length scr = Z.to_nat (r * c) → length dep = Z.to_nat (r * c) →
              dep !! Z.to_nat idx = Some d →
              render_mesh_body r c (scr, dep) p =
              Ok (if Qltb d (z p)
                  then (<[Z.to_nat idx := glyph_of (z p)]> scr, <[Z.to_nat idx := z p]> dep)
                  else (scr, dep))).
    { intros scr dep d Hs Hd Hlook.
      rewrite (render_mesh_body_safe (Z.to_nat (r * c))) by done.
      unfold raster_step, paint. rewrite Ht. simpl. rewrite Hlook.
      now destruct (Qltb d (z p)). }
    split; [exact Hidx|]. split.
    + intros scr dep d Hs Hd Hlook. rewrite (Hstep scr dep d Hs Hd Hlook). split.
      * intros Hlt. apply Qltb_lt in Hlt. now rewrite Hlt.
      * intros Hge. apply Qltb_ge in Hge. now rewrite Hge.
    + intros Hfar.
      rewrite (render_mesh_dims_ok [p] r c Hok). cbv zeta.
      eexists. split; [reflexivity|]. cbn [screen depth foldl].
      unfold raster_step. rewrite Ht. unfold paint. cbn [fst snd].
      rewrite lookup_replicate_2 by lia.
      apply Qltb_lt in Hfar. rewrite Hfar. cbn [fst snd].
      rewrite !list_lookup_insert_eq by (rewrite length_replicate; lia). done.
  - intros Hlo Hhi Hc. exact (screen_axis_in_domain (x p) c Hlo Hhi (proj1 Hc)).
  - intros Hlo Hhi Hr. exact (screen_axis_in_domain (y p) r Hlo Hhi (proj1 Hr)).
Qed.

Lemma out_of_view_points_skipped_witness :
  (out_of_view 3 4 (pt (5 # 1) 0 (1 # 2)) ∧
   render_mesh_body 3 4 (replicate 12 BLANK, replicate 12 FAR) (pt (5 # 1) 0 (1 # 2)) =
   Ok (replicate 12 BLANK, replicate 12 FAR)) ∧
  (¬ out_of_view 3 4 (pt 0 0 (1 # 2)) ∧
   ∃ f, render_mesh [pt 0 0 (1 # 2)] 3 4 = Ok f ∧
        screen f !! Z.to_nat (Qfloor (screen_y 3 (pt 0 0 (1 # 2))) * 4 +
                              Qfloor (screen_x 4 (pt 0 0 (1 # 2))))
        = Some (glyph_of (z (pt 0 0 (1 # 2))))).
Proof.
  split.
  - assert (Hout : out_of_view 3 4 (pt (5 # 1) 0 (1 # 2))).
    { unfold out_of_view. right. left. vm_compute. reflexivity. }
    split; [exact Hout|].
    exact (proj1 (proj1 (out_of_view_points_skipped 3 4 (pt (5 # 1) 0 (1 # 2))) Hout)
             (replicate 12 BLANK, replicate 12 FAR)).
  - assert (Hin : ¬ out_of_view 3 4 (pt 0 0 (1 # 2))).
    { unfold out_of_view. vm_compute. intros [E | [E | [E | E]]]; discriminate E. }
    assert (Hok : dims_ok 3 4) by (unfold dims_ok, INT_MAX; lia).
    split; [exact Hin|].
    destruct (proj1 (proj2 (out_of_view_points_skipped 3 4 (pt 0 0 (1 # 2)))) Hin Hok)
      as (_ & _ & Hrender).
    destruct Hrender as (f & Hf & Hs & _); [reflexivity|].
    exists f. split; [exact Hf | exact Hs].
Defined.

(** ** C8 and C10: empty collections and empty terminals *)

Lemma append_assoc (a b c : string) : (a +:+ b) +:+ c = a +:+ (b +:+ c).
Proof.
  induction a as [|ch a IH]; [reflexivity|].
  change (String ch ((a +:+ b) +:+ c) = String ch (a +:+ (b +:+ c))). by f_equal.
Qed.

Lemma append_empty_r (a : string) : a +:+ "" = a.
Proof.
  induction a as [|ch a IH]; [reflexivity|].
  change (String ch (a +:+ "") = String ch a). by f_equal.
Qed.

Lemma foldl_ext_in {A B : Type} (f g : A → B → A) (l : list B) (a : A) :
  (∀ a b, b ∈ l → f a b = g a b) → foldl f a l = foldl g a l.
Proof.
  revert a. induction l as [|b l IH]; intros a Hfg; [done|].
  simpl. rewrite Hfg by (by left). apply IH. intros a' b' Hb'. apply Hfg. by right.
Qed.

Lemma foldl_newlines {B : Type} (a : string) (l : list B) :
  foldl (fun out _ => out +:+ NEWLINE) a l =
  a +:+ foldl (fun out _ => out +:+ NEWLINE) "" l.
Proof.
  revert a. induction l as [|b l IH]; intros a; cbn [foldl].
  - now rewrite append_empty_r.
  - rewrite IH. rewrite (IH ("" +:+ NEWLINE)). now rewrite append_assoc.
Qed.

Lemma frame_text_blank (r c : Z) (n : nat) :
  frame_text r c (replicate n BLANK) = blank_frame r c.
Proof.
  unfold frame_text, blank_frame.
  apply foldl_ext_in. intros out r' _. f_equal.
  apply foldl_ext_in. intros out' c' _. f_equal.
  destruct (replicate n BLANK !! _) as [s|] eqn:E; [|done].
  simpl. now apply lookup_replicate_1 in E as [-> _].
Qed.

Lemma frame_text_no_cells (r c : Z) (scr : list string) :
  r * c = 0 → frame_text r c scr = CURSOR_HOME +:+ newlines r.
Proof.
  intros Hrc. unfold frame_text, newlines.
  destruct (decide (c ≤ 0)) as [Hc|Hc].
  - rewrite <- foldl_newlines. apply foldl_ext_in. intros out r' _.
    unfold seqZ. replace (Z.to_nat c) with 0%nat by lia. done.
  - assert (r = 0) as -> by nia. done.
Qed.

Lemma render_mesh_empty (r c : Z) (f : Frame) :
  render_mesh [] r c = Ok f →
  screen f = replicate (Z.to_nat (int_mul r c)) BLANK ∧
  depth f = replicate (Z.to_nat (int_mul r c)) FAR.
Proof. intros Hf. now apply render_mesh_Ok in Hf as (_ & -> & -> & _). Qed.

(** A terminal without cells: every point is discarded, nothing is
    written to the buffers, and the frame is the cursor-home sequence
    followed by one row terminator per row. *)
Lemma render_mesh_no_cells (pts : list (Point Q)) (r c : Z) :
  dims_ok r c → r * c = 0 →
  (∀ p, discarded r c p = true) ∧
  render_mesh pts r c = Ok (mkFrame [] [] (CURSOR_HOME +:+ newlines r)).
Proof.
  intros Hok Hrc.
  assert (Hdisc : ∀ p, discarded r c p = true).
  { intros p. destruct (discarded r c p) eqn:E; [done|].
    assert (Ht : target r c p = Some (int_add (int_mul (proj_row r p) c) (proj_col c p)))
      by (unfold target; now rewrite E).
    apply target_Some in Ht as (Hrow & Hcol & _). nia. }
  split; [exact Hdisc|].
  rewrite (render_mesh_dims_ok pts r c Hok). cbv zeta.
  rewrite Hrc. simpl.
  assert (Hbuf : foldl (raster_step r c) ([], []) pts = ([], [])).
  { induction pts as [|p pts IH]; [done|]. simpl.
    unfold raster_step at 2, target. now rewrite Hdisc. }
  rewrite Hbuf. simpl. now rewrite frame_text_no_cells.
Qed.

Section EmptyCollection.
Context `{Libm Q}.

Lemma rotate_mesh_nil : rotate_mesh (@nil (Point Q)) = [].
Proof. reflexivity. Qed.

(** C8 (as amended).  For terminal dimensions whose cell count is an [int],
    [render_mesh] of the empty collection returns without a fault a
    frame whose glyph cells are all blank and whose depths are all
    [FAR], and writes the all-blank text; whenever [render_mesh] of the
    empty collection returns, the cells are blank and at [FAR]; and when
    the sampler yields no point, every iteration of the main loop writes
    that blank frame and the process goes on. *)
Theorem empty_collection_blank_frame (r c : Z) :
  (dims_ok r c →
     render_mesh [] r c =
     Ok (mkFrame (replicate (Z.to_nat (r * c)) BLANK)
                 (replicate (Z.to_nat (r * c)) FAR) (blank_frame r c))) ∧
  (∀ f, render_mesh [] r c = Ok f →
        Forall (eq BLANK) (screen f) ∧ Forall (eq FAR) (depth f)) ∧
  (∀ (NUM_POINTS : Z) (k : nat),
     init_mesh NUM_POINTS = [] → dims_ok (r mod 2 ^ 16) (c mod 2 ^ 16) →
     main NUM_POINTS (IoctlOk r c) k =
     mkProcess [] (replicate k (blank_frame (r mod 2 ^ 16) (c mod 2 ^ 16))) None).
Proof.
  assert (Hblank : ∀ r c, dims_ok r c →
            render_mesh [] r c =
            Ok (mkFrame (replicate (Z.to_nat (r * c)) BLANK)
                        (replicate (Z.to_nat (r * c)) FAR) (blank_frame r c))).
  { intros r' c' Hok. rewrite (render_mesh_dims_ok [] r' c' Hok). simpl.
    now rewrite frame_text_blank. }
  split; [apply Hblank | split].
  - intros f Hf. apply render_mesh_empty in Hf as [-> ->].
    split; apply Forall_replicate_eq.
  - intros NUM_POINTS k Hnil Hok. unfold main. rewrite Hnil. simpl ioctl_TIOCGWINSZ.
    induction k as [|k IH]; [done|].
    rewrite Nat.iter_succ, IH. unfold loop_iteration. simpl.
    rewrite (Hblank _ _ Hok). simpl. now rewrite <- replicate_S_end.
Qed.
End EmptyCollection.

Lemma empty_collection_blank_frame_witness :
  dims_ok 2 3 ∧
  render_mesh [] 2 3 =
    Ok (mkFrame (replicate 6 BLANK) (replicate 6 FAR) (blank_frame 2 3)) ∧
  init_mesh 0 = [] ∧
  main 0 (IoctlOk 2 3) 2 =
    mkProcess [] (replicate 2 (blank_frame (2 mod 2 ^ 16) (3 mod 2 ^ 16))) None.
Proof.
  assert (Hok : dims_ok 2 3) by (unfold dims_ok, INT_MAX; lia).
  split; [exact Hok|].
  split; [exact (proj1 (empty_collection_blank_frame 2 3) Hok)|].
  split; [reflexivity|].
  exact (proj2 (proj2 (empty_collection_blank_frame 2 3)) 0 2%nat eq_refl Hok).
Defined.

(** C8, as stated, fails for sizes whose cell count is not an [int]:
    with 65535 rows and 65535 columns, sizes [main] can pass on,
    [render_mesh] of the empty collection throws instead of producing a
    frame, and a process with an empty collection ends at its first
    iteration without having written a frame. *)
Lemma empty_collection_counterexample :
  (0 ≤ 65535 ∧ render_mesh [] 65535 65535 = Fault LengthError) ∧
  (init_mesh 0 = [] ∧
   written (main 0 (IoctlOk 65535 65535) 1) = [] ∧
   ended (main 0 (IoctlOk 65535 65535) 1) = Some LengthError).
Proof.
  split; [split; [lia | vm_compute; reflexivity]|].
  split; [reflexivity|]. split; vm_compute; reflexivity.
Qed.

(** C10 (as amended).  For non-negative terminal dimensions whose cell
    count [rows * cols] is an [int], [render_mesh] returns a frame for
    every point collection: the index of every access is
    [row * cols + col] with [0 <= row < rows] and [0 <= col < cols], hence
    inside [0, rows * cols), the size of both buffers.  With zero rows or
    zero columns every point is discarded, no cell exists to be written,
    and the frame is the cursor-home sequence followed by the row
    terminators only. *)
Theorem render_mesh_total_when_cells_fit (pts : list (Point Q)) (r c : Z) :
  dims_ok r c →
  (∃ f, render_mesh pts r c = Ok f ∧
        length (screen f) = Z.to_nat (r * c) ∧ length (depth f) = Z.to_nat (r * c)) ∧
  (∀ p idx, target r c p = Some idx →
            0 ≤ proj_row r p < r ∧ 0 ≤ proj_col c p < c ∧
            idx = proj_row r p * c + proj_col c p ∧ 0 ≤ idx < r * c) ∧
  (r = 0 ∨ c = 0 →
     (∀ p, discarded r c p = true) ∧
     render_mesh pts r c = Ok (mkFrame [] [] (CURSOR_HOME +:+ newlines r))).
Proof.
  intros Hok. split; [|split].
  - rewrite (render_mesh_dims_ok pts r c Hok). cbv zeta.
    eexists. split; [reflexivity|]. simpl.
    destruct (foldl_raster_length r c pts
                (replicate (Z.to_nat (r * c)) BLANK, replicate (Z.to_nat (r * c)) FAR))
      as [-> ->].
    simpl. now rewrite !length_replicate.
  - intros p idx Ht. apply target_Some in Ht as (Hrow & Hcol & ->).
    destruct (cell_index_ok r c _ _ Hok Hrow Hcol) as [-> Hb]. done.
  - intros Hzero. apply render_mesh_no_cells; [done | nia].
Qed.

Lemma render_mesh_total_when_cells_fit_witness :
  dims_ok 0 0 ∧
  render_mesh [pt 0 0 0] 0 0 = Ok (mkFrame [] [] (CURSOR_HOME +:+ newlines 0)).
Proof.
  assert (Hok : dims_ok 0 0) by (unfold dims_ok, INT_MAX; lia).
  split; [exact Hok|].
  exact (proj2 (proj2 (proj2 (render_mesh_total_when_cells_fit [pt 0 0 0] 0 0 Hok))
                  (or_introl eq_refl))).
Defined.

(** C10, as stated, fails for non-negative dimensions whose cell count is
    not an [int]: 65535 x 65535 wraps to a negative count and the vector
    constructor throws; 65536 x 65536 wraps to 0, the buffers are empty,
    and the point at the origin passes the bounds test and reads
    [depth[2147450879]]. *)
Lemma render_mesh_total_counterexample :
  (0 ≤ 65535 ∧ render_mesh [] 65535 65535 = Fault LengthError) ∧
  (0 ≤ 65536 ∧ target 65536 65536 (pt 0 0 0) = Some 2147450879 ∧
   render_mesh [pt 0 0 0] 65536 65536 = Fault (OutOfBounds "depth")).
Proof.
  split; [split; [lia | vm_compute; reflexivity]|].
  split; [lia|]. split; vm_compute; reflexivity.
Qed.

(** ** C4: the rotation matrix *)

Section Rotation.
Local Open Scope R_scope.

Lemma lit_R_0 : lit (float := R) 0 = 0.
Proof. simpl. unfold Q2R. simpl. lra. Qed.

Lemma lit_R_1 : lit (float := R) 1 = 1.
Proof. simpl. unfold Q2R. simpl. lra. Qed.

Lemma sin_cos_theta : sin_theta * sin_theta + cos_theta * cos_theta = 1.
Proof.
  unfold sin_theta, cos_theta. simpl.
  pose proof (sin2_cos2 THETA) as E. unfold Rsqr in E. exact E.
Qed.

Ltac entries tac :=
  repeat (apply (f_equal2 cons); [tac|]); try reflexivity.

(** C4.  With [std::sin] and [std::cos] the real sine and cosine, [ROT]
    is the product of the rotations about the x, y and z axes by [THETA];
    it is orthogonal; and [rotate_point] with [ROT] preserves the
    distance of every point from the origin. *)
Theorem ROT_is_a_rotation :
  (ROT : list R) =
    mat_mul (rot_x sin_theta cos_theta)
            (mat_mul (rot_y sin_theta cos_theta) (rot_z sin_theta cos_theta)) ∧
  mat_mul (ROT : list R) (transpose ROT) = identity ∧
  mat_mul (transpose (ROT : list R)) ROT = identity ∧
  ∀ p : Point R,
    norm2 (rotate_point p ROT) = norm2 p ∧
    sqrt (norm2 (rotate_point p ROT)) = sqrt (norm2 p).
Proof.
  pose proof sin_cos_theta as E.
  unfold ROT, mat_mul, mat_entry, transpose, identity, rot_x, rot_y, rot_z,
    rotate_point, norm2, at9.
  cbn [nth Nat.mul Nat.add x y z]. rewrite lit_R_0, lit_R_1.
  cbn [add sub mul neg R_scalar].
  set (s := sin_theta) in *. set (c := cos_theta) in *. clearbody s c.
  assert (Hs : s * s = 1 - c * c) by lra.
  split; [|split; [|split]].
  - entries ltac:(ring).
  - entries ltac:(nsatz).
  - entries ltac:(nsatz).
  - intros [px py pz]. cbn [x y z].
    assert (Hn : (px * (c * c) + py * (- c * s) + pz * s) *
                 (px * (c * c) + py * (- c * s) + pz * s) +
                 (px * (s * c + s * s * c) + py * (c * c - s * s * s) + pz * (- s * c)) *
                 (px * (s * c + s * s * c) + py * (c * c - s * s * s) + pz * (- s * c)) +
                 (px * (s * s - c * c * s) + py * (s * c + c * s * s) + pz * (c * c)) *
                 (px * (s * s - c * c * s) + py * (s * c + c * s * s) + pz * (c * c))
                 = px * px + py * py + pz * pz) by nsatz.
    split; [exact Hn | now rewrite Hn].
Qed.
End Rotation.

(** ** C2: the sampler *)

Section SamplerProperties.
Context `{Libm Q}.
Variable NUM_POINTS : Z.

Lemma init_mesh_body_app (pts : list (Point Q)) (i j : Z) :
  init_mesh_body NUM_POINTS pts i j = pts ++ init_mesh_body NUM_POINTS [] i j.
Proof.
  unfold init_mesh_body. destruct (calculate_pos_z _ _); simpl.
  - now rewrite <- app_assoc.
  - now rewrite app_nil_r.
Qed.

Lemma init_mesh_body_length (i j : Z) :
  (length (init_mesh_body NUM_POINTS [] i j) ≤ 2)%nat.
Proof. unfold init_mesh_body. destruct (calculate_pos_z _ _); simpl; lia. Qed.

Lemma init_mesh_row (pts : list (Point Q)) (i : Z) (l : list Z) :
  foldl (fun points j => init_mesh_body NUM_POINTS points i j) pts l =
  pts ++ flat_map (fun j => init_mesh_body NUM_POINTS [] i j) l.
Proof.
  revert pts. induction l as [|j l IH]; intros pts; simpl.
  - now rewrite app_nil_r.
  - rewrite IH, init_mesh_body_app. now rewrite <- app_assoc.
Qed.

Lemma init_mesh_rows (pts : list (Point Q)) (l l' : list Z) :
  foldl (fun points i =>
           foldl (fun points j => init_mesh_body NUM_POINTS points i j) points l')
        pts l =
  pts ++ flat_map (fun i => flat_map (fun j => init_mesh_body NUM_POINTS [] i j) l') l.
Proof.
  revert pts. induction l as [|i l IH]; intros pts; simpl.
  - now rewrite app_nil_r.
  - rewrite IH, init_mesh_row. now rewrite <- app_assoc.
Qed.

Lemma flat_map_length_le {A B : Type} (f : A → list B) (k : nat) (l : list A) :
  (∀ a, length (f a) ≤ k)%nat → (length (flat_map f l) ≤ k * length l)%nat.
Proof.
  intros Hf. induction l as [|a l IH]; simpl; [lia|].
  rewrite length_app. specialize (Hf a). lia.
Qed.

(** C2.  For the grid sample [(i, j)], with [x = mesh_to_value i],
    [y = mesh_to_value j] and
    [inner = r^2 - (sqrt (x^2 + y^2) - R)^2]: when [inner < 0] the loop
    body appends nothing; otherwise it appends exactly two points, both
    at [(x, y)], the first with [z = sqrt inner] and the second with the
    opposite [z] (the two coincide when that root is zero).  [init_mesh] is the concatenation of what the body
    appends over the [N x N] grid, so it holds at most [2 * N^2]
    points. *)
Theorem sampler_emits_pairs (pts : list (Point Q)) (i j : Z) :
  let xv := mesh_to_value NUM_POINTS i in
  let yv := mesh_to_value NUM_POINTS j in
  let inner :=
    (pow_2 MINOR_RADIUS - pow_2 (std_sqrt (xv * xv + yv * yv) - MAJOR_RADIUS))%fl in
  ((inner < 0)%Q → init_mesh_body NUM_POINTS pts i j = pts) ∧
  (¬ (inner < 0)%Q →
     ∃ p1 p2, init_mesh_body NUM_POINTS pts i j = pts ++ [p1; p2] ∧
              x p1 = xv ∧ y p1 = yv ∧ x p2 = xv ∧ y p2 = yv ∧
              z p1 = std_sqrt inner ∧ (z p2 == - std_sqrt inner)%Q ∧
              ((std_sqrt inner == 0)%Q → (z p2 == z p1)%Q)) ∧
  init_mesh NUM_POINTS =
    flat_map (fun i => flat_map (fun j => init_mesh_body NUM_POINTS [] i j)
                                (seqZ 0 NUM_POINTS))
             (seqZ 0 NUM_POINTS) ∧
  (length (init_mesh NUM_POINTS) ≤ 2 * (Z.to_nat NUM_POINTS * Z.to_nat NUM_POINTS))%nat.
Proof.
  intros xv yv inner.
  assert (Hgrid : init_mesh NUM_POINTS =
            flat_map (fun i => flat_map (fun j => init_mesh_body NUM_POINTS [] i j)
                                        (seqZ 0 NUM_POINTS))
                     (seqZ 0 NUM_POINTS)).
  { unfold init_mesh. now rewrite init_mesh_rows. }
  split; [|split; [|split]].
  - intros Hneg. unfold init_mesh_body, calculate_pos_z.
    fold xv yv inner. apply Qltb_lt in Hneg.
    change (lit 0) with 0%Q. now rewrite Hneg.
  - intros Hpos. unfold init_mesh_body, calculate_pos_z.
    fold xv yv inner.
    assert (E : Qltb inner 0 = false) by (apply Qltb_ge; now apply Qnot_lt_le).
    change (lit 0) with 0%Q. rewrite E.
    exists (mkPoint xv yv (std_sqrt inner)),
           (mkPoint xv yv (lit (-1) * std_sqrt inner)%fl).
    simpl. rewrite <- app_assoc. repeat split; try reflexivity.
  intros Hroot. rewrite Hroot. reflexivity.
  - exact Hgrid.
  - rewrite Hgrid.
    assert (Hrow : ∀ i', (length (flat_map (fun j => init_mesh_body NUM_POINTS [] i' j)
                                       (seqZ 0 NUM_POINTS))
                        ≤ 2 * Z.to_nat NUM_POINTS)%nat).
    { intros i'.
      pose proof (flat_map_length_le (fun j => init_mesh_body NUM_POINTS [] i' j) 2
                    (seqZ 0 NUM_POINTS) (init_mesh_body_length i')) as Hi.
      now rewrite length_seqZ in Hi. }
    pose proof (flat_map_length_le _ _ (seqZ 0 NUM_POINTS) Hrow) as Hall.
    rewrite length_seqZ in Hall. lia.
Qed.
End SamplerProperties.


Lemma sampler_emits_pairs_witness :
  init_mesh_body 4 [] 0 0 = [] ∧
  ∃ p1 p2, init_mesh_body 4 [] 1 1 = [] ++ [p1; p2] ∧ (z p2 == - z p1)%Q.
Proof.
  pose proof (proj1 (sampler_emits_pairs 4 [] 0 0)) as Hout.
  pose proof (proj1 (proj2 (sampler_emits_pairs 4 [] 1 1))) as Hin.
  cbv zeta in Hout, Hin. split.
  - apply Hout. vm_compute. reflexivity.
  - destruct Hin as (p1 & p2 & E & _ & _ & _ & _ & Hz1 & Hz2 & _).
    + vm_compute. discriminate.
    + exists p1, p2. split; [exact E|]. rewrite Hz1. exact Hz2.
Defined.

(** ** C7 and C9: the main loop *)

Section MainProperties.
Context `{Libm Q}.
Variable NUM_POINTS : Z.

Lemma rotate_mesh_length (pts : list (Point Q)) : length (rotate_mesh pts) = length pts.
Proof. unfold rotate_mesh. apply length_fmap. Qed.

Lemma std_sort_length (pts : list (Point Q)) :
  length (std_sort order_points pts) = length pts.
Proof. apply Permutation_length, std_sort_perm. Qed.

Lemma loop_iteration_points (w : winsize) (st : Process) :
  points (loop_iteration w st) =
  match ended st with
  | Some _ => points st
  | None => std_sort order_points (rotate_mesh (points st))
  end.
Proof.
  unfold loop_iteration. destruct (ended st); [done|].
  now destruct (render_mesh _ _ _).
Qed.

Lemma loop_iteration_length (w : winsize) (st : Process) :
  length (points (loop_iteration w st)) = length (points st).
Proof.
  rewrite loop_iteration_points. destruct (ended st); [done|].
  now rewrite std_sort_length, rotate_mesh_length.
Qed.

(** With a terminal without cells the loop runs on, and every iteration
    writes the cursor-home sequence and the row terminators. *)
Lemma main_no_cells (env : ioctl_outcome) (k : nat) :
  let w := ioctl_TIOCGWINSZ env (mkWinsize 0 0) in
  dims_ok (ws_row w) (ws_col w) → ws_row w * ws_col w = 0 →
  written (main NUM_POINTS env k) = replicate k (CURSOR_HOME +:+ newlines (ws_row w)) ∧
  ended (main NUM_POINTS env k) = None.
Proof.
  intros w Hok Hzero. unfold main. fold w.
  induction k as [|k [IHw IHe]]; [done|].
  rewrite Nat.iter_succ. unfold loop_iteration at 1 3. rewrite IHe.
  destruct (render_mesh_no_cells
              (std_sort order_points
                 (rotate_mesh (points (Nat.iter k (loop_iteration w)
                    (mkProcess (init_mesh NUM_POINTS) [] None)))))
              (ws_row w) (ws_col w) Hok Hzero) as [_ ->].
  simpl. rewrite IHw. now rewrite <- replicate_S_end.
Qed.

(** C7 (as amended).  [main] does not look at the outcome of the
    dimension query.  When the query fails it goes on with the
    zero-initialized [winsize]: every iteration of the loop writes a
    frame, which is the cursor-home sequence alone, and the process does
    not end.  When the query reports zero rows or zero columns, every
    iteration writes the cursor-home sequence and one row terminator per
    row, and the process does not end either. *)
Theorem main_renders_without_terminal (k : nat) :
  (written (main NUM_POINTS IoctlFailed k) = replicate k CURSOR_HOME ∧
   ended (main NUM_POINTS IoctlFailed k) = None) ∧
  (∀ row col, row mod 2 ^ 16 = 0 ∨ col mod 2 ^ 16 = 0 →
     written (main NUM_POINTS (IoctlOk row col) k) =
       replicate k (CURSOR_HOME +:+ newlines (row mod 2 ^ 16)) ∧
     ended (main NUM_POINTS (IoctlOk row col) k) = None).
Proof.
  split.
  - destruct (main_no_cells IoctlFailed k) as [Hw He]; simpl.
    + unfold dims_ok, INT_MAX. lia.
    + lia.
    + split; [|exact He]. rewrite Hw. simpl. reflexivity.
  - intros row col Hzero.
    pose proof (Z.mod_pos_bound row (2 ^ 16)) as Hr.
    pose proof (Z.mod_pos_bound col (2 ^ 16)) as Hc.
    apply (main_no_cells (IoctlOk row col) k); cbn [ioctl_TIOCGWINSZ ws_row ws_col].
    + unfold dims_ok, INT_MAX. destruct Hzero as [-> | ->]; lia.
    + destruct Hzero as [-> | ->]; lia.
Qed.

(** C9.  After any number of iterations of the main loop the collection
    has as many points as [init_mesh] returned.  Each operation of an
    iteration keeps the count: [rotate_mesh] maps the points one by one,
    the sort permutes them, and the collection after [render_mesh] is the
    one that was passed to it. *)
Theorem point_count_fixed (env : ioctl_outcome) (k : nat) :
  length (points (main NUM_POINTS env k)) = length (init_mesh NUM_POINTS) ∧
  (∀ pts : list (Point Q), length (rotate_mesh pts) = length pts) ∧
  (∀ pts : list (Point Q),
     std_sort order_points pts ≡ₚ pts ∧
     length (std_sort order_points pts) = length pts) ∧
  (∀ (w : winsize) (st : Process),
     points (loop_iteration w st) =
       match ended st with
       | Some _ => points st
       | None => std_sort order_points (rotate_mesh (points st))
       end ∧
     length (points (loop_iteration w st)) = length (points st)).
Proof.
  split; [|split; [|split]].
  - unfold main. induction k as [|k IH]; [done|].
    rewrite Nat.iter_succ. rewrite loop_iteration_length. exact IH.
  - apply rotate_mesh_length.
  - intros pts. split; [apply std_sort_perm | apply std_sort_length].
  - intros w st. split; [apply loop_iteration_points | apply loop_iteration_length].
Qed.
End MainProperties.

Lemma main_renders_without_terminal_witness :
  written (main 500 (IoctlOk 0 80) 2) = replicate 2 (CURSOR_HOME +:+ newlines (0 mod 2 ^ 16)).
Proof.
  apply (main_renders_without_terminal 500 2). left. reflexivity.
Defined.

(** C7, as stated, fails: with the query failing, the first iteration of
    the loop writes a frame (the cursor-home sequence) and the process has
    not ended; so it is when the terminal reports zero rows. *)
Lemma main_query_counterexample :
  (written (main 500 IoctlFailed 1) = [CURSOR_HOME] ∧
   ended (main 500 IoctlFailed 1) = None) ∧
  (written (main 500 (IoctlOk 0 80) 1) = [CURSOR_HOME] ∧
   ended (main 500 (IoctlOk 0 80) 1) = None).
Proof.
  split.
  - destruct (main_no_cells 500 IoctlFailed 1) as [Hw He].
    + repeat split; vm_compute; discriminate.
    + reflexivity.
    + split; [|exact He]. rewrite Hw. reflexivity.
  - destruct (main_no_cells 500 (IoctlOk 0 80) 1) as [Hw He].
    + repeat split; vm_compute; discriminate.
    + reflexivity.
    + split; [|exact He]. rewrite Hw. reflexivity.
Qed.

(** * Further properties of the code *)

(** ** Range conversion *)

Lemma convert_range_affine (i a b c d : Q) :
  ¬ a == b → convert_range i a b c d == (i - a) * ((d - c) / (b - a)) + c.
Proof.
  intros Hab. unfold convert_range. simpl. field.
  intros E. apply Hab. lra.
Qed.

(** X1.  [convert_range] with [a] different from [b] maps [a] to [c] and
    [b] to [d], and converting back from [c, d] to [a, b] returns the
    value converted (when [c] differs from [d]). *)
Theorem convert_range_round_trip (i a b c d : Q) :
  ¬ a == b →
  convert_range a a b c d == c ∧
  convert_range b a b c d == d ∧
  (¬ c == d → convert_range (convert_range i a b c d) c d a b == i).
Proof.
  intros Hab.
  assert (Hba : ¬ b - a == 0) by (intros E; apply Hab; lra).
  unfold convert_range. simpl. split; [|split].
  - field. exact Hba.
  - field. exact Hba.
  - intros Hcd. field. split; [exact Hba|]. intros E. apply Hcd. lra.
Qed.

Lemma convert_range_round_trip_witness :
  (convert_range (convert_range (1 # 3) (- (8 # 10)) (8 # 10) 0 79) 0 79 (- (8 # 10)) (8 # 10)
   == 1 # 3)%Q.
Proof.
  apply (convert_range_round_trip (1 # 3) (- (8 # 10)) (8 # 10) 0 79)%Q; discriminate.
Defined.

Lemma discarded_false (r c : Z) (p : Point Q) :
  discarded r c p = false →
  (0 ≤ proj_col c p < c ∧ proj_col c p = Qfloor (screen_x c p)) ∧
  (0 ≤ proj_row r p < r ∧ proj_row r p = Qfloor (screen_y r p)).
Proof.
  intros Hd.
  assert (Ht : target r c p = Some (int_add (int_mul (proj_row r p) c) (proj_col c p)))
    by (unfold target; now rewrite Hd).
  apply target_Some in Ht as (Hrow & Hcol & _).
  unfold proj_col, proj_row in *. rewrite !static_cast_int_floor in *.
  destruct (in_int (Qfloor (screen_x c p))); [|unfold INT_MIN in Hcol; lia].
  destruct (in_int (Qfloor (screen_y r p))); [|unfold INT_MIN in Hrow; lia].
  done.
Qed.

(** X2.  [convert_range] from an interval [a < b] to a range [c <= d] is
    monotone; so among the points the bounds test of [render_mesh] lets
    through, the [int] column [col] it computes is monotone in [x], and
    the row [row] in [y]. *)
Theorem convert_range_monotone (a b c d i1 i2 : Q) :
  (a < b)%Q → (c <= d)%Q → (i1 <= i2)%Q →
  (convert_range i1 a b c d <= convert_range i2 a b c d)%Q ∧
  (∀ (p1 p2 : Point Q) (term_rows term_cols : Z),
     discarded term_rows term_cols p1 = false →
     discarded term_rows term_cols p2 = false →
     ((x p1 <= x p2)%Q → proj_col term_cols p1 ≤ proj_col term_cols p2) ∧
     ((y p1 <= y p2)%Q → proj_row term_rows p1 ≤ proj_row term_rows p2)).
Proof.
  assert (Hmono : ∀ a b c d i1 i2 : Q, (a < b)%Q → (c <= d)%Q → (i1 <= i2)%Q →
            (convert_range i1 a b c d <= convert_range i2 a b c d)%Q).
  { clear. intros a b c d i1 i2 Hab Hcd Hi.
    rewrite !convert_range_affine by (intros E; rewrite E in Hab; lra).
    assert (Hk : (0 <= (d - c) / (b - a))%Q).
    { apply Qle_shift_div_l; lra. }
    set (k := ((d - c) / (b - a))%Q) in *. clearbody k. nra. }
  assert (Haxis : ∀ (v1 v2 : Q) (n : Z), 1 ≤ n → (v1 <= v2)%Q →
            Qfloor (convert_range v1 (- MAX_X_Y)%fl MAX_X_Y (lit 0) (of_int n - lit 1)%fl)
            ≤ Qfloor (convert_range v2 (- MAX_X_Y)%fl MAX_X_Y (lit 0) (of_int n - lit 1)%fl)).
  { intros v1 v2 n Hn Hv. apply Qfloor_resp_le, Hmono; [reflexivity | | exact Hv].
    unfold of_int. simpl.
    assert (E : (1 <= inject_Z n)%Q) by (change 1%Q with (inject_Z 1); rewrite <- Zle_Qle; lia).
    lra. }
  intros Hab Hcd Hi. split; [now apply Hmono|].
  intros p1 p2 rows cols Hd1 Hd2.
  destruct (discarded_false rows cols p1 Hd1) as [[Hc1 Ec1] [Hr1 Er1]].
  destruct (discarded_false rows cols p2 Hd2) as [[Hc2 Ec2] [Hr2 Er2]].
  rewrite Ec1, Ec2, Er1, Er2. split; intros Hv.
  - exact (Haxis (x p1) (x p2) cols ltac:(lia) Hv).
  - exact (Haxis (y p1) (y p2) rows ltac:(lia) Hv).
Qed.

Lemma convert_range_monotone_witness :
  (convert_range (1 # 4) 0 1 0 10 <= convert_range (1 # 2) 0 1 0 10)%Q ∧
  proj_col 80 (pt (- (1 # 2)) 0 0) ≤ proj_col 80 (pt (1 # 2) 0 0).
Proof.
  destruct (convert_range_monotone 0 1 0 10 (1 # 4) (1 # 2))%Q as [Hc Hp];
    [reflexivity | discriminate | discriminate |].
  split; [exact Hc|].
  apply (Hp (pt (- (1 # 2)) 0 0) (pt (1 # 2) 0 0) 24 80);
    [reflexivity | reflexivity | discriminate].
Defined.

(** ** The sampling grid and the sampled points *)

Lemma mesh_to_value_affine (N i : Z) :
  0 < N →
  mesh_to_value N i == inject_Z i * ((16 # 10) / inject_Z N) - (8 # 10).
Proof.
  intros HN. unfold mesh_to_value, convert_range, of_int, MAX_X_Y, MAJOR_RADIUS, MINOR_RADIUS.
  simpl. field.
  assert (E : (0 < inject_Z N)%Q) by (change 0%Q with (inject_Z 0); rewrite <- Zlt_Qlt; lia).
  intros E0. rewrite E0 in E. lra.
Qed.

Lemma mesh_to_value_range (N i : Z) :
  0 ≤ i < N → (- MAX_X_Y <= mesh_to_value N i)%Q ∧ (mesh_to_value N i < MAX_X_Y)%Q.
Proof.
  intros [Hi0 HiN].
  assert (Hn : (0 < inject_Z N)%Q) by (change 0%Q with (inject_Z 0); rewrite <- Zlt_Qlt; lia).
  assert (Hk : (0 < (16 # 10) / inject_Z N)%Q) by (apply Qlt_shift_div_l; lra).
  assert (Hkn : inject_Z N * ((16 # 10) / inject_Z N) == 16 # 10)
    by (field; intros E; rewrite E in Hn; lra).
  assert (HM : MAX_X_Y == 8 # 10) by reflexivity.
  rewrite !mesh_to_value_affine by lia. rewrite HM.
  set (k := ((16 # 10) / inject_Z N)%Q) in *. clearbody k.
  assert (E0 : (0 <= inject_Z i)%Q) by (change 0%Q with (inject_Z 0); rewrite <- Zle_Qle; lia).
  assert (E1 : (inject_Z i < inject_Z N)%Q) by (rewrite <- Zlt_Qlt; lia).
  split; nra.
Qed.



Section SampledPoints.
Context `{Libm Q}.
Variable NUM_POINTS : Z.

(** Every point of the collection comes from a grid sample with a
    non-negative [inner], as one of the two points of that sample. *)
Lemma init_mesh_elem (p : Point Q) :
  p ∈ init_mesh NUM_POINTS →
  ∃ i j s, 0 ≤ i < NUM_POINTS ∧ 0 ≤ j < NUM_POINTS ∧
           calculate_pos_z (mesh_to_value NUM_POINTS i) (mesh_to_value NUM_POINTS j) = Some s ∧
           init_mesh_body NUM_POINTS [] i j =
             [mkPoint (mesh_to_value NUM_POINTS i) (mesh_to_value NUM_POINTS j) s;
              mkPoint (mesh_to_value NUM_POINTS i) (mesh_to_value NUM_POINTS j)
                      (lit (-1) * s)%fl] ∧
           p ∈ init_mesh_body NUM_POINTS [] i j.
Proof.
  unfold init_mesh. rewrite init_mesh_rows. simpl.
  rewrite list_elem_of_In, in_flat_map. intros (i & Hi & Hp).
  apply in_flat_map in Hp as (j & Hj & Hp).
  apply list_elem_of_In, elem_of_seqZ in Hi. apply list_elem_of_In, elem_of_seqZ in Hj.
  apply list_elem_of_In in Hp.
  unfold init_mesh_body in Hp |- *.
  destruct (calculate_pos_z _ _) as [s|] eqn:Ez.
  - exists i, j, s. split; [lia|]. split; [lia|]. split; [exact Ez|].
    rewrite Ez. split; [reflexivity | exact Hp].
  - by apply elem_of_nil in Hp.
Qed.

Lemma init_mesh_body_elem (i j : Z) (q : Point Q) :
  0 ≤ i < NUM_POINTS → 0 ≤ j < NUM_POINTS →
  q ∈ init_mesh_body NUM_POINTS [] i j → q ∈ init_mesh NUM_POINTS.
Proof.
  intros Hi Hj Hq. unfold init_mesh. rewrite init_mesh_rows. simpl.
  rewrite list_elem_of_In, in_flat_map. exists i. split.
  - apply list_elem_of_In, elem_of_seqZ. lia.
  - apply in_flat_map. exists j. split.
    + apply list_elem_of_In, elem_of_seqZ. lia.
    + now apply list_elem_of_In.
Qed.

Lemma flat_map_even {A B : Type} (f : A → list B) (l : list A) :
  (∀ a, Nat.Even (length (f a))) → Nat.Even (length (flat_map f l)).
Proof.
  intros Hf. induction l as [|a l IH]; simpl.
  - exists 0%nat. reflexivity.
  - rewrite length_app. destruct (Hf a) as [m Hm]. destruct IH as [n Hn].
    exists (m + n)%nat. lia.
Qed.

(** X4.  The collection [init_mesh] builds has an even number of points.
    Each of its points sits at a grid position [(mesh_to_value i,
    mesh_to_value j)] with [0 <= i, j < N] for which [calculate_pos_z]
    returned a value [s], with [z] equal to [s] or to [-1.0 * s]; and its
    mirror image in the plane [z = 0] is in the collection too. *)
Theorem init_mesh_mirror_pairs (p : Point Q) :
  Nat.Even (length (init_mesh NUM_POINTS)) ∧
  (p ∈ init_mesh NUM_POINTS →
   (∃ i j s, 0 ≤ i < NUM_POINTS ∧ 0 ≤ j < NUM_POINTS ∧
             x p = mesh_to_value NUM_POINTS i ∧ y p = mesh_to_value NUM_POINTS j ∧
             calculate_pos_z (x p) (y p) = Some s ∧
             (z p = s ∨ z p = (lit (-1) * s)%fl)) ∧
   (∃ q, q ∈ init_mesh NUM_POINTS ∧ x q = x p ∧ y q = y p ∧ (z q == - z p)%Q)).
Proof.
  split.
  - unfold init_mesh. rewrite init_mesh_rows. simpl.
    apply flat_map_even. intros i. apply flat_map_even. intros j.
    unfold init_mesh_body. destruct (calculate_pos_z _ _); simpl.
    + exists 1%nat. reflexivity.
    + exists 0%nat. reflexivity.
  - intros Hp. apply init_mesh_elem in Hp as (i & j & s & Hi & Hj & Hz & Hbody & Hp).
    rewrite Hbody in Hp.
    apply elem_of_cons in Hp as [-> | Hp]; [|apply list_elem_of_singleton in Hp as ->]; simpl.
    + split.
      * exists i, j, s. repeat split; try lia; try done. by left.
      * exists (mkPoint (mesh_to_value NUM_POINTS i) (mesh_to_value NUM_POINTS j)
                        (lit (-1) * s)%fl).
        split; [|simpl; repeat split; ring].
        apply (init_mesh_body_elem i j); [done | done |]. rewrite Hbody.
        apply elem_of_cons. right. by apply list_elem_of_singleton.
    + split.
      * exists i, j, s. repeat split; try lia; try done. by right.
      * exists (mkPoint (mesh_to_value NUM_POINTS i) (mesh_to_value NUM_POINTS j) s).
        split; [|simpl; repeat split; ring].
        apply (init_mesh_body_elem i j); [done | done |]. rewrite Hbody.
        apply elem_of_cons. by left.
Qed.

(** X5.  Every point of the collection [init_mesh] builds projects inside
    a terminal with at least one row and one column: before any rotation
    [render_mesh] discards none of them. *)
Theorem init_mesh_in_view (p : Point Q) (term_rows term_cols : Z) :
  p ∈ init_mesh NUM_POINTS →
  1 ≤ term_rows ≤ INT_MAX → 1 ≤ term_cols ≤ INT_MAX →
  discarded term_rows term_cols p = false ∧
  0 ≤ proj_row term_rows p < term_rows ∧ 0 ≤ proj_col term_cols p < term_cols.
Proof.
  intros Hp Hr Hc.
  apply init_mesh_elem in Hp as (i & j & s & Hi & Hj & _ & Hbody & Hp).
  destruct (mesh_to_value_range NUM_POINTS i Hi) as [Hx0 Hx1].
  destruct (mesh_to_value_range NUM_POINTS j Hj) as [Hy0 Hy1].
  assert (Hxy : x p = mesh_to_value NUM_POINTS i ∧ y p = mesh_to_value NUM_POINTS j).
  { rewrite Hbody in Hp.
    apply elem_of_cons in Hp as [-> | Hp]; [|apply list_elem_of_singleton in Hp as ->]; done. }
  destruct Hxy as [Ex Ey].
  pose proof (screen_axis_in_domain (x p) term_cols) as Hcol.
  pose proof (screen_axis_in_domain (y p) term_rows) as Hrow.
  rewrite Ex in Hcol. rewrite Ey in Hrow.
  specialize (Hcol Hx0 (Qlt_le_weak _ _ Hx1) (proj1 Hc)).
  specialize (Hrow Hy0 (Qlt_le_weak _ _ Hy1) (proj1 Hr)).
  rewrite <- Ex in Hcol. rewrite <- Ey in Hrow.
  destruct (proj_axis_cases (screen_x term_cols p) term_cols) as [_ Hc'].
  destruct (proj_axis_cases (screen_y term_rows p) term_rows) as [_ Hr'].
  cbv zeta in Hc', Hr'.
  destruct (Hc' Hcol) as [Ec Ec']; [lia|].
  destruct (Hr' Hrow) as [Er Er']; [lia|].
  fold (proj_col term_cols p) in Ec, Ec'. fold (proj_row term_rows p) in Er, Er'.
  split; [|lia].
  unfold discarded. cbv zeta. rewrite <- orb_assoc, Ec', Er'. reflexivity.
Qed.
End SampledPoints.

Lemma init_mesh_mirror_pairs_witness :
  ∃ p q, p ∈ init_mesh 4 ∧ q ∈ init_mesh 4 ∧ x q = x p ∧ y q = y p ∧ (z q == - z p)%Q.
Proof.
  assert (Hne : ∃ p, p ∈ init_mesh 4).
  { destruct (init_mesh 4) as [|p l] eqn:E; [vm_compute in E; discriminate|].
    exists p. by left. }
  destruct Hne as [p Hp].
  destruct (proj2 (proj2 (init_mesh_mirror_pairs 4 p) Hp)) as (q & Hq & Hx & Hy & Hz).
  exists p, q. repeat split; assumption.
Defined.

Lemma init_mesh_in_view_witness :
  ∃ p, p ∈ init_mesh 4 ∧ discarded 24 80 p = false.
Proof.
  assert (Hne : ∃ p, p ∈ init_mesh 4).
  { destruct (init_mesh 4) as [|p l] eqn:E; [vm_compute in E; discriminate|].
    exists p. by left. }
  destruct Hne as [p Hp]. exists p. split; [exact Hp|].
  apply (init_mesh_in_view 4 p 24 80 Hp); unfold INT_MAX; lia.
Defined.

(** ** The torus and its rotation, at the reals *)

Section RealTorus.
Local Open Scope R_scope.

Lemma real_constants :
  (MAJOR_RADIUS : R) = 6 / 10 ∧ (MINOR_RADIUS : R) = 2 / 10 ∧ (MAX_X_Y : R) = 8 / 10 ∧
  lit (float := R) 0 = 0.
Proof.
  unfold MAX_X_Y, MAJOR_RADIUS, MINOR_RADIUS. simpl. unfold Q2R. simpl.
  repeat split; lra.
Qed.

(** The rotation keeps the squared distance from the origin. *)
Lemma rotate_point_norm2 (p : Point R) : norm2 (rotate_point p ROT) = norm2 p.
Proof.
  pose proof sin_cos_theta as E.
  unfold ROT, rotate_point, norm2, at9. cbn [nth x y z].
  cbn [add sub mul neg R_scalar].
  set (s := sin_theta) in *. set (c := cos_theta) in *. clearbody s c.
  destruct p as [px py pz]. cbn [x y z]. nsatz.
Qed.

(** X6.  In real arithmetic, a value [z] returned by [calculate_pos_z]
    for [(x, y)] is non-negative and puts both [(x, y, z)] and
    [(x, y, -z)] on the torus [(sqrt (x^2 + y^2) - R)^2 + z^2 = r^2]; such
    a point is at distance at most [R + r] from the origin.  The function
    returns nothing exactly when [(x, y)] is outside the annulus
    [R - r <= sqrt (x^2 + y^2) <= R + r]. *)
Theorem sampled_points_on_torus (xv yv : R) :
  (∀ zv, calculate_pos_z_real xv yv = Some zv →
         0 <= zv ∧
         (sqrt (xv * xv + yv * yv) - MAJOR_RADIUS) ^ 2 + zv ^ 2 = MINOR_RADIUS ^ 2 ∧
         (sqrt (xv * xv + yv * yv) - MAJOR_RADIUS) ^ 2 + (- zv) ^ 2 = MINOR_RADIUS ^ 2 ∧
         norm2 (mkPoint xv yv zv) <= MAX_X_Y ^ 2 ∧
         norm2 (mkPoint xv yv (- zv)) <= MAX_X_Y ^ 2) ∧
  (calculate_pos_z_real xv yv = None ↔
   ¬ (MAJOR_RADIUS - MINOR_RADIUS <= sqrt (xv * xv + yv * yv) <= MAJOR_RADIUS + MINOR_RADIUS)).
Proof.
  destruct real_constants as (HR & Hr & HM & H0).
  unfold calculate_pos_z_real, pow_2. cbn [add sub mul neg R_scalar std_sqrt R_libm].
  rewrite H0, HR, Hr, HM.
  assert (Hsq : 0 <= xv * xv + yv * yv) by nra.
  pose proof (sqrt_pos (xv * xv + yv * yv)) as Hrho.
  pose proof (sqrt_sqrt _ Hsq) as Hrho2.
  set (rho := sqrt (xv * xv + yv * yv)) in *. clearbody rho.
  set (inner := 2 / 10 * (2 / 10) - (rho - 6 / 10) * (rho - 6 / 10)).
  split.
  - intros zv Hz. destruct (Rlt_dec inner 0) as [Hneg|Hpos]; [done|].
    injection Hz as <-.
    assert (Hin : 0 <= inner) by lra.
    pose proof (sqrt_pos inner) as Hz0.
    pose proof (sqrt_sqrt _ Hin) as Hz2.
    set (zv := sqrt inner) in *. clearbody zv.
    unfold norm2. cbn [x y z add sub mul neg R_scalar]. unfold inner in *.
    repeat split; nra.
  - destruct (Rlt_dec inner 0) as [Hneg|Hpos]; unfold inner in *.
    + split; [intros _; nra | done].
    + split; [done|]. intros Hout. exfalso. apply Hout. nra.
Qed.

Lemma sampled_points_on_torus_witness :
  calculate_pos_z_real (6 / 10) 0 = Some (sqrt (2 / 10 * (2 / 10))) ∧
  0 <= sqrt (2 / 10 * (2 / 10)).
Proof.
  assert (E : calculate_pos_z_real (6 / 10) 0 = Some (sqrt (2 / 10 * (2 / 10)))).
  { destruct real_constants as (HR & Hr & HM & H0).
    unfold calculate_pos_z_real, pow_2. cbn [add sub mul neg R_scalar std_sqrt R_libm].
    rewrite H0, HR, Hr.
    replace (6 / 10 * (6 / 10) + 0 * 0) with ((6 / 10) ^ 2) by ring.
    rewrite sqrt_pow2 by lra.
    replace (2 / 10 * (2 / 10) - (6 / 10 - 6 / 10) * (6 / 10 - 6 / 10))
      with (2 / 10 * (2 / 10)) by ring.
    destruct (Rlt_dec _ 0) as [Hneg|_]; [lra | reflexivity]. }
  split; [exact E|].
  exact (proj1 (proj1 (sampled_points_on_torus (6 / 10) 0) _ E)).
Defined.

Lemma rotate_frames_norm2 (k : nat) (pts : list (Point R)) :
  Forall2 (fun p q => norm2 q = norm2 p) pts (rotate_frames k pts).
Proof.
  unfold rotate_frames. induction k as [|k IH].
  - apply Forall2_same_length_lookup_2; [done|]. intros i p q Hp Hq.
    change (Nat.iter 0 rotate_mesh pts) with pts in Hq. congruence.
  - rewrite Nat.iter_succ. unfold rotate_mesh at 1. apply Forall2_fmap_r.
    eapply Forall2_impl; [exact IH|]. intros p q Hpq. unfold compose.
    now rewrite rotate_point_norm2.
Qed.

(** X7.  In real arithmetic, after any number of frames every point is
    at the distance from the origin it started at.  So a point that starts
    within [R + r] of the origin, as the sampled points do, keeps all
    three coordinates in [-(R+r), R+r], the domain the projector
    converts from. *)
Theorem rotation_keeps_points_in_domain (k : nat) (pts : list (Point R)) :
  length (rotate_frames k pts) = length pts ∧
  Forall2 (fun p q => norm2 q = norm2 p) pts (rotate_frames k pts) ∧
  (Forall (fun p => norm2 p <= MAX_X_Y ^ 2) pts →
   Forall (fun q => - MAX_X_Y <= x q <= MAX_X_Y ∧
                    - MAX_X_Y <= y q <= MAX_X_Y ∧
                    - MAX_X_Y <= z q <= MAX_X_Y) (rotate_frames k pts)).
Proof.
  pose proof (rotate_frames_norm2 k pts) as Hnorm.
  split; [symmetry; exact (Forall2_length _ _ _ Hnorm)|]. split; [exact Hnorm|].
  intros Hball.
  destruct real_constants as (_ & _ & HM & _). rewrite HM in *.
  apply Forall_forall. intros q Hq.
  apply list_elem_of_lookup in Hq as [i Hq].
  destruct (Forall2_lookup_r _ _ _ _ _ Hnorm Hq) as (p & Hp & Hpq).
  rewrite Forall_lookup in Hball. specialize (Hball i p Hp). cbv beta in Hball, Hpq.
  rewrite <- Hpq in Hball. unfold norm2 in Hball.
  cbn [add sub mul neg R_scalar] in Hball.
  repeat split; nra.
Qed.

Lemma rotation_keeps_points_in_domain_witness :
  Forall (fun q : Point R => - MAX_X_Y <= x q <= MAX_X_Y ∧
                             - MAX_X_Y <= y q <= MAX_X_Y ∧
                             - MAX_X_Y <= z q <= MAX_X_Y)
         (rotate_frames 3 [mkPoint (6 / 10) 0 (2 / 10)]).
Proof.
  apply (rotation_keeps_points_in_domain 3 [mkPoint (6 / 10) 0 (2 / 10)]).
  constructor; [|constructor].
  destruct real_constants as (_ & _ & HM & _). rewrite HM.
  unfold norm2. cbn [x y z add sub mul neg R_scalar]. lra.
Defined.

(** X8.  In real arithmetic [ROT] has determinant 1: it is a proper
    rotation, without a reflection. *)
Theorem ROT_determinant_one : det3 (ROT : list R) = 1.
Proof.
  pose proof sin_cos_theta as E.
  unfold det3, ROT, at9. cbn [nth]. cbn [add sub mul neg R_scalar].
  set (s := sin_theta) in *. set (c := cos_theta) in *. clearbody s c. nsatz.
Qed.
End RealTorus.

(** ** The comparator and the sort *)

(** X9.  [order_points] is a strict weak ordering, as [std::sort] requires
    of its comparator: it is irreflexive, asymmetric and transitive, two
    points are left unordered by it exactly when their [z] are equal, and
    being unordered is transitive. *)
Theorem order_points_strict_weak (a b c : Point Q) :
  order_points a a = false ∧
  (order_points a b = true → order_points b a = false) ∧
  (order_points a b = true → order_points b c = true → order_points a c = true) ∧
  (order_points a b = false ∧ order_points b a = false ↔ z a == z b) ∧
  (order_points a b = false ∧ order_points b a = false →
   order_points b c = false ∧ order_points c b = false →
   order_points a c = false ∧ order_points c a = false).
Proof.
  assert (Hspec : ∀ p q : Point Q, order_points p q = Qltb (z p) (z q))
    by (intros p q; unfold order_points; now destruct (Qltb _ _)).
  assert (Hequiv : ∀ p q : Point Q,
            order_points p q = false ∧ order_points q p = false ↔ z p == z q).
  { intros p q. rewrite !Hspec, !Qltb_ge. split.
    - intros [H1 H2]. now apply Qle_antisym.
    - intros E. rewrite E. split; apply Qle_refl. }
  split; [|split; [|split; [|split]]].
  - rewrite Hspec. apply Qltb_ge, Qle_refl.
  - rewrite !Hspec, Qltb_lt, Qltb_ge. apply Qlt_le_weak.
  - rewrite !Hspec, !Qltb_lt. apply Qlt_trans.
  - apply Hequiv.
  - rewrite !Hequiv. intros E1 E2. now rewrite E1.
Qed.

Lemma order_points_strict_weak_witness :
  order_points (pt 0 0 (1 # 2)) (pt 0 0 (- (1 # 2))) = false.
Proof.
  exact (proj1 (proj2 (order_points_strict_weak
                         (pt 0 0 (- (1 # 2))) (pt 0 0 (1 # 2)) (pt 0 0 0))) eq_refl).
Defined.

Lemma sort_insert_sorted (p : Point Q) (l : list (Point Q)) :
  StronglySorted (fun a b => (z a <= z b)%Q) l →
  StronglySorted (fun a b => (z a <= z b)%Q) (sort_insert order_points p l).
Proof.
  induction l as [|q l IH]; intros Hs; simpl.
  - repeat constructor.
  - apply StronglySorted_inv in Hs as [Hl Hq].
    unfold order_points at 1. destruct (Qltb (z q) (z p)) eqn:E.
    + apply Qltb_lt in E. constructor; [now apply IH|].
      rewrite (sort_insert_perm order_points p l).
      constructor; [now apply Qlt_le_weak | exact Hq].
    + apply Qltb_ge in E. constructor; [now constructor|].
      constructor; [exact E|].
      eapply Forall_impl; [exact Hq|]. intros r Hr. simpl in Hr.
      now apply (Qle_trans _ (z q)).
Qed.

Lemma std_sort_sorted (l : list (Point Q)) :
  StronglySorted (fun a b => (z a <= z b)%Q) (std_sort order_points l).
Proof.
  unfold std_sort. induction l as [|p l IH]; simpl; [constructor|].
  now apply sort_insert_sorted.
Qed.

Section SortedFrames.
Context `{Libm Q}.
Variable NUM_POINTS : Z.

(** X10.  Sorting with [order_points] puts the collection in
    non-decreasing order of [z] (farthest first); so after every iteration
    of the main loop the collection is in that order, each point being no
    nearer than any point after it is far. *)
Theorem points_sorted_each_frame (env : ioctl_outcome) (k : nat) :
  (∀ l : list (Point Q),
     StronglySorted (fun a b => (z a <= z b)%Q) (std_sort order_points l)) ∧
  ((1 ≤ k)%nat →
   StronglySorted (fun a b => (z a <= z b)%Q) (points (main NUM_POINTS env k))).
Proof.
  split; [apply std_sort_sorted|].
  unfold main. set (w := ioctl_TIOCGWINSZ env (mkWinsize 0 0)).
  set (st0 := mkProcess (init_mesh NUM_POINTS) [] None).
  assert (Hinv : ∀ n, ended (Nat.iter n (loop_iteration w) st0) = None ∨
                      StronglySorted (fun a b => (z a <= z b)%Q)
                        (points (Nat.iter n (loop_iteration w) st0))).
  { induction n as [|n IH]; [by left|]. right.
    rewrite Nat.iter_succ, loop_iteration_points.
    destruct IH as [-> | IH]; [apply std_sort_sorted|].
    destruct (ended _); [exact IH | apply std_sort_sorted]. }
  intros Hk. destruct k as [|k]; [lia|].
  rewrite Nat.iter_succ, loop_iteration_points.
  destruct (Hinv k) as [-> | IH]; [apply std_sort_sorted|].
  destruct (ended _); [exact IH | apply std_sort_sorted].
Qed.
End SortedFrames.

Lemma points_sorted_each_frame_witness :
  StronglySorted (fun a b => (z a <= z b)%Q) (points (main 4 (IoctlOk 3 4) 2)).
Proof.
  apply (points_sorted_each_frame 4 (IoctlOk 3 4) 2). lia.
Defined.

(** ** More on the rasterizer *)

Lemma paint_other (i j : nat) (zv : Q) (buf : list string * list Q) :
  i ≠ j → (paint i zv buf).1 !! j = buf.1 !! j ∧ (paint i zv buf).2 !! j = buf.2 !! j.
Proof.
  intros Hij. unfold paint. destruct (buf.2 !! i); [|done].
  destruct (Qltb _ _); [|done]. simpl. by rewrite !list_lookup_insert_ne.
Qed.

Lemma paint_depth_mono (i j : nat) (zv d : Q) (buf : list string * list Q) :
  buf.2 !! j = Some d → ∃ d', (paint i zv buf).2 !! j = Some d' ∧ (d <= d')%Q.
Proof.
  intros Hd. destruct (decide (i = j)) as [->|Hij].
  - unfold paint. rewrite Hd. destruct (Qltb d zv) eqn:E.
    + exists zv. simpl. rewrite list_lookup_insert_eq by (by eapply lookup_lt_Some).
      split; [done|]. apply Qlt_le_weak. now apply Qltb_lt.
    + exists d. split; [done | apply Qle_refl].
  - exists d. destruct (paint_other i j zv buf Hij) as [_ ->]. split; [done | apply Qle_refl].
Qed.

Lemma raster_more (n : nat) (r c : Z) (more : list (Point Q)) (buf : list string * list Q) :
  Forall (safe n r c) more →
  (∀ j d, buf.2 !! j = Some d →
          ∃ d', (foldl (raster_step r c) buf more).2 !! j = Some d' ∧ (d <= d')%Q) ∧
  (∀ j, (∀ q, q ∈ more → target r c q ≠ Some (Z.of_nat j)) →
        (foldl (raster_step r c) buf more).1 !! j = buf.1 !! j ∧
        (foldl (raster_step r c) buf more).2 !! j = buf.2 !! j).
Proof.
  intros Hall. revert buf. induction Hall as [|p more Hp _ IH]; intros buf.
  - split; [|done]. intros j d Hd. exists d. split; [done | apply Qle_refl].
  - destruct (IH (raster_step r c buf p)) as [IHm IHo]. simpl. split.
    + intros j d Hd.
      assert (Hstep : ∃ d1, (raster_step r c buf p).2 !! j = Some d1 ∧ (d <= d1)%Q).
      { unfold raster_step. destruct (target r c p); [now apply paint_depth_mono|].
        exists d. split; [done | apply Qle_refl]. }
      destruct Hstep as (d1 & Hd1 & Hle1).
      destruct (IHm j d1 Hd1) as (d' & Hd' & Hle'). exists d'. split; [done|].
      now apply (Qle_trans _ d1).
    + intros j Hnone.
      destruct (IHo j) as [-> ->]; [intros q Hq; apply Hnone; by right|].
      unfold raster_step, safe in *. destruct (target r c p) as [idx|] eqn:Ht; [|done].
      apply paint_other. intros E. apply (Hnone p); [by left|].
      rewrite Ht. f_equal. lia.
Qed.

(** X11.  Drawing more points never lowers a stored depth: when
    [render_mesh] returns for a collection and for the collection with
    further points appended, the depth of every cell with the further
    points is at least its depth without them, and a cell that none of the
    further points is tested at keeps its depth and its glyph. *)
Theorem more_points_only_raise_depth (pts more : list (Point Q)) (r c : Z) (f f' : Frame) :
  render_mesh pts r c = Ok f → render_mesh (pts ++ more) r c = Ok f' →
  (∀ i d, depth f !! i = Some d → ∃ d', depth f' !! i = Some d' ∧ (d <= d')%Q) ∧
  (∀ i, (∀ q, q ∈ more → target r c q ≠ Some (Z.of_nat i)) →
        screen f' !! i = screen f !! i ∧ depth f' !! i = depth f !! i).
Proof.
  intros Hf Hf'.
  apply render_mesh_Ok in Hf as (_ & Hs & Hd & _).
  apply render_mesh_Ok in Hf' as (Hall & Hs' & Hd' & _).
  cbv zeta in Hs, Hd, Hall, Hs', Hd'.
  rewrite foldl_app in Hs', Hd'. apply Forall_app in Hall as [_ Hmore].
  rewrite Hs, Hd, Hs', Hd'.
  exact (raster_more _ r c more _ Hmore).
Qed.

Lemma more_points_only_raise_depth_witness :
  ∃ f f', render_mesh [pt 0 0 0] 3 4 = Ok f ∧
          render_mesh ([pt 0 0 0] ++ [pt 0 0 (1 # 2)]) 3 4 = Ok f' ∧
          ∃ d', depth f' !! 5%nat = Some d' ∧ (0 <= d')%Q.
Proof.
  assert (Hf : ∃ f, render_mesh [pt 0 0 0] 3 4 = Ok f)
    by (eexists; vm_compute; reflexivity).
  assert (Hf' : ∃ f', render_mesh ([pt 0 0 0] ++ [pt 0 0 (1 # 2)]) 3 4 = Ok f')
    by (eexists; vm_compute; reflexivity).
  destruct Hf as [f Hf]. destruct Hf' as [f' Hf'].
  exists f, f'. split; [exact Hf|]. split; [exact Hf'|].
  apply (proj1 (more_points_only_raise_depth _ _ 3 4 f f' Hf Hf') 5%nat 0%Q).
  assert (E : Ok f = render_mesh [pt 0 0 0] 3 4) by (symmetry; exact Hf).
  vm_compute in E. injection E as ->. reflexivity.
Defined.

(** X12.  The glyph buffer and the text [render_mesh] writes depend only
    on which points are in the collection: two collections with the same
    members, whatever their order and however often a point is repeated,
    give the same glyphs and the same text (or the same fault). *)
Theorem render_mesh_same_members (pts pts' : list (Point Q)) (r c : Z) :
  (∀ p, p ∈ pts ↔ p ∈ pts') →
  screen <$> render_mesh pts r c = screen <$> render_mesh pts' r c ∧
  cout <$> render_mesh pts r c = cout <$> render_mesh pts' r c.
Proof.
  intros Hmem. rewrite !render_mesh_unfold.
  destruct (int_mul r c <? 0); [done|]. cbv zeta.
  set (n := Z.to_nat (int_mul r c)).
  assert (Hsafe : Forall (safe n r c) pts ↔ Forall (safe n r c) pts').
  { rewrite !Forall_forall. split; intros Hall p Hp; apply Hall, Hmem, Hp. }
  destruct (decide (Forall (safe n r c) pts)) as [Hall|Hall].
  - assert (Hall' : Forall (safe n r c) pts') by now apply Hsafe.
    rewrite decide_True by done.
    assert (Hscr : (foldl (raster_step r c) (replicate n BLANK, replicate n FAR) pts).1 =
                   (foldl (raster_step r c) (replicate n BLANK, replicate n FAR) pts').1).
    { destruct (foldl_raster_length r c pts (replicate n BLANK, replicate n FAR)) as [L1 _].
      destruct (foldl_raster_length r c pts' (replicate n BLANK, replicate n FAR)) as [L2 _].
      cbn [fst snd] in L1, L2.
      rewrite length_replicate in L1. rewrite length_replicate in L2.
      apply list_eq. intros i.
      destruct (decide (i < n)%nat) as [Hi|Hi].
      - destruct (cell_inv_final n r c pts i Hall Hi) as (d & g & _ & -> & Hmax & Hcase).
        destruct (cell_inv_final n r c pts' i Hall' Hi)
          as (d' & g' & _ & -> & Hmax' & Hcase').
        f_equal.
        destruct Hcase as [[-> ->] | (m & Hm & Htm & Hfar & -> & ->)];
          destruct Hcase' as [[-> ->] | (m' & Hm' & Htm' & Hfar' & -> & ->)].
        + done.
        + exfalso. apply (Qlt_not_le _ _ Hfar'). apply Hmax; [|done]. now apply Hmem.
        + exfalso. apply (Qlt_not_le _ _ Hfar). apply Hmax'; [|done]. now apply Hmem.
        + apply glyph_of_comp. apply Qle_antisym.
          * apply Hmax'; [|done]. now apply Hmem.
          * apply Hmax; [|done]. now apply Hmem.
      - rewrite !lookup_ge_None_2; [done | |]; lia. }
    rewrite <- Hscr. destruct (draw r c _); done.
  - rewrite decide_False by (intros Hall'; apply Hall; now apply Hsafe).
    done.
Qed.

Lemma render_mesh_same_members_witness :
  screen <$> render_mesh [pt 0 0 0; pt 0 0 (1 # 2); pt 0 0 0] 3 4 =
  screen <$> render_mesh [pt 0 0 (1 # 2); pt 0 0 0] 3 4.
Proof.
  apply (render_mesh_same_members [pt 0 0 0; pt 0 0 (1 # 2); pt 0 0 0]
           [pt 0 0 (1 # 2); pt 0 0 0] 3 4).
  intros p. rewrite !elem_of_cons, !elem_of_nil. tauto.
Defined.

Lemma glyph_of_not_blank (zv : Q) : glyph_of zv ≠ BLANK.
Proof.
  destruct (symbols_get zv) as [_ Hin]. intros E. rewrite E in Hin.
  apply list_elem_of_In in Hin. simpl in Hin.
  destruct Hin as [Hin | [Hin | [Hin | [Hin | []]]]]; discriminate Hin.
Qed.

Lemma filter_insert_length {A : Type} (P : A → Prop) `{∀ a, Decision (P a)}
    (l : list A) (i : nat) (v : A) :
  (length (filter P (<[i := v]> l)) ≤ length (filter P l) + 1)%nat.
Proof.
  revert i. induction l as [|a l IH]; intros i; [simpl; lia|].
  destruct i as [|i]; simpl.
  - rewrite !filter_cons. repeat case_decide; simpl; lia.
  - rewrite !filter_cons. specialize (IH i). case_decide; simpl; lia.
Qed.

Lemma raster_drawn_count (r c : Z) (pts : list (Point Q)) (buf : list string * list Q) :
  (length (filter (fun g => g ≠ BLANK) (foldl (raster_step r c) buf pts).1)
   ≤ length (filter (fun g => g ≠ BLANK) buf.1) + length pts)%nat.
Proof.
  revert buf. induction pts as [|p pts IH]; intros buf; simpl; [lia|].
  etransitivity; [apply IH|].
  assert (Hstep : (length (filter (fun g => g ≠ BLANK) (raster_step r c buf p).1)
                   ≤ length (filter (fun g => g ≠ BLANK) buf.1) + 1)%nat).
  { unfold raster_step. destruct (target r c p); [|lia].
    unfold paint. destruct (buf.2 !! _); [|lia]. destruct (Qltb _ _); [|lia].
    simpl. apply filter_insert_length. }
  lia.
Qed.

Lemma filter_replicate_blank (n : nat) :
  filter (fun g => g ≠ BLANK) (replicate n BLANK) = [].
Proof.
  induction n as [|n IH]; [done|]. simpl. rewrite filter_cons.
  rewrite decide_False by (intros E; now apply E). exact IH.
Qed.

(** X13.  In a frame [render_mesh] returns, a cell is not blank exactly
    when some point of the collection that is nearer than the initial
    depth [FAR] is tested at it; and the number of cells that are not
    blank is at most the number of points. *)
Theorem drawn_cells (pts : list (Point Q)) (r c : Z) (f : Frame) :
  render_mesh pts r c = Ok f →
  (∀ i, (i < length (screen f))%nat →
        (screen f !! i ≠ Some BLANK ↔
         ∃ p, p ∈ pts ∧ target r c p = Some (Z.of_nat i) ∧ (FAR < z p)%Q)) ∧
  (length (filter (fun g => g ≠ BLANK) (screen f)) ≤ length pts)%nat.
Proof.
  intros Hf. split.
  - intros i Hi.
    destruct (render_mesh_cell_inv pts r c f i Hf Hi) as (d & g & Hd & Hg & Hmax & Hcase).
    simpl in Hd, Hg. rewrite Hg. split.
    + intros Hnb. destruct Hcase as [[_ ->] | (m & Hm & Htm & Hfar & _)]; [done|].
      exists m. done.
    + intros (p & Hp & Htp & Hfar) E.
      destruct Hcase as [[-> _] | (m & _ & _ & _ & _ & ->)].
      * apply (Qlt_not_le _ _ Hfar). now apply Hmax.
      * injection E as E. now apply glyph_of_not_blank in E.
  - apply render_mesh_Ok in Hf as (_ & -> & _). cbv zeta.
    etransitivity; [apply raster_drawn_count|].
    simpl. now rewrite filter_replicate_blank.
Qed.

Lemma drawn_cells_witness :
  ∃ f, render_mesh [pt 0 0 0; pt 0 0 (1 # 2); pt (5 # 1) 0 0] 3 4 = Ok f ∧
       (length (filter (fun g => g ≠ BLANK) (screen f)) ≤ 3)%nat.
Proof.
  assert (Hf : ∃ f, render_mesh [pt 0 0 0; pt 0 0 (1 # 2); pt (5 # 1) 0 0] 3 4 = Ok f)
    by (eexists; vm_compute; reflexivity).
  destruct Hf as [f Hf]. exists f. split; [exact Hf|].
  exact (proj2 (drawn_cells _ 3 4 f Hf)).
Defined.

(** ** The shade of a depth *)

Lemma Qfloor_ge (q : Q) (n : Z) : (inject_Z n <= q)%Q → n ≤ Qfloor q.
Proof. intros Hq. rewrite <- (Qfloor_Z n). now apply Qfloor_resp_le. Qed.

Lemma Qfloor_lt (q : Q) (n : Z) : (q < inject_Z n)%Q → Qfloor q < n.
Proof.
  intros Hq. rewrite Zlt_Qlt. eapply Qle_lt_trans; [apply Qfloor_le | exact Hq].
Qed.

(** Below the depth at which the scaled value leaves the [int] range, the
    shade is the floor of [2.5 z + 2] clamped to [0, 3]. *)
Lemma shade_of_floor (zv : Q) :
  (zv <= 800000000 # 1)%Q →
  shade_of zv = Z.max 0 (Z.min 3 (Qfloor ((5 # 2) * zv + 2))).
Proof.
  intros Hz. unfold shade_of.
  rewrite (static_cast_int_comp _ ((5 # 2) * zv + 2))
    by (unfold MAX_X_Y, MAJOR_RADIUS, MINOR_RADIUS; simpl; field).
  set (t := ((5 # 2) * zv + 2)%Q).
  assert (Ht : (t <= 2000000002 # 1)%Q) by (unfold t; lra).
  clearbody t. unfold static_cast_int, Qtrunc.
  destruct (Qltb t 0) eqn:E.
  - apply Qltb_lt in E.
    assert (Hc : Qceiling t ≤ 0).
    { rewrite <- (Qceiling_Z 0). apply Qceiling_resp_le. now apply Qlt_le_weak. }
    assert (Hf : Qfloor t < 0) by now apply Qfloor_lt.
    destruct (in_int (Qceiling t)).
    + destruct (Qceiling t <? 0) eqn:E1; [simpl; lia|]. apply Z.ltb_ge in E1.
      replace (Qceiling t) with 0 by lia. simpl. lia.
    + change (INT_MIN <? 0) with true. simpl. lia.
  - apply Qltb_ge in E.
    assert (Hf0 : 0 ≤ Qfloor t) by now apply Qfloor_ge.
    assert (Hf1 : Qfloor t < 2000000003).
    { apply Qfloor_lt. eapply Qle_lt_trans; [exact Ht | reflexivity]. }
    replace (in_int (Qfloor t)) with true
      by (symmetry; apply in_int_spec; unfold INT_MIN, INT_MAX; lia).
    replace (Qfloor t <? 0) with false by (symmetry; apply Z.ltb_ge; lia).
    destruct (Qfloor t >? 3) eqn:E2.
    + rewrite Z.gtb_ltb in E2. apply Z.ltb_lt in E2. lia.
    + rewrite Z.gtb_ltb in E2. apply Z.ltb_ge in E2. lia.
Qed.

(** In exact arithmetic the clamped floor changes at -0.4, 0 and 0.4. *)
Lemma shade_of_cases (zv z2 : Q) :
  (zv <= 800000000 # 1)%Q →
  ((zv < - (4 # 10))%Q → shade_of zv = 0 ∧ glyph_of zv = "░") ∧
  ((- (4 # 10) <= zv)%Q → (zv < 0)%Q → shade_of zv = 1 ∧ glyph_of zv = "▒") ∧
  ((0 <= zv)%Q → (zv < 4 # 10)%Q → shade_of zv = 2 ∧ glyph_of zv = "▓") ∧
  ((4 # 10 <= zv)%Q → shade_of zv = 3 ∧ glyph_of zv = "█") ∧
  ((zv <= z2)%Q → (z2 <= 800000000 # 1)%Q → shade_of zv ≤ shade_of z2).
Proof.
  intros Hz.
  assert (Hval : ∀ n, shade_of zv = n → 0 ≤ n ≤ 3 →
            shade_of zv = n ∧ glyph_of zv = nth (Z.to_nat n) SYMBOLS BLANK)
    by (intros n Hn _; unfold glyph_of; now rewrite Hn).
  rewrite (shade_of_floor zv Hz) in *.
  pose proof (Qfloor_le ((5 # 2) * zv + 2)) as Hlo.
  pose proof (Qlt_floor ((5 # 2) * zv + 2)) as Hhi.
  split; [|split; [|split; [|split]]].
  - intros H1. apply (Hval 0); [|lia].
    assert (Qfloor ((5 # 2) * zv + 2) < 1) by (apply Qfloor_lt; unfold inject_Z; lra). lia.
  - intros H1 H2. apply (Hval 1); [|lia].
    assert (1 ≤ Qfloor ((5 # 2) * zv + 2)) by (apply Qfloor_ge; unfold inject_Z; lra).
    assert (Qfloor ((5 # 2) * zv + 2) < 2) by (apply Qfloor_lt; unfold inject_Z; lra). lia.
  - intros H1 H2. apply (Hval 2); [|lia].
    assert (2 ≤ Qfloor ((5 # 2) * zv + 2)) by (apply Qfloor_ge; unfold inject_Z; lra).
    assert (Qfloor ((5 # 2) * zv + 2) < 3) by (apply Qfloor_lt; unfold inject_Z; lra). lia.
  - intros H1. apply (Hval 3); [|lia].
    assert (3 ≤ Qfloor ((5 # 2) * zv + 2)) by (apply Qfloor_ge; unfold inject_Z; lra). lia.
  - intros H1 H2. rewrite (shade_of_floor z2 H2).
    assert (Qfloor ((5 # 2) * zv + 2) ≤ Qfloor ((5 # 2) * z2 + 2))
      by (apply Qfloor_resp_le; lra).
    lia.
Qed.

(** X14.  In exact arithmetic, when the loop body overwrites a cell with
    a point whose [z] is at most 8e8, the glyph it stores is [SYMBOLS[0]]
    for [z < -0.4], [SYMBOLS[1]] for [-0.4 <= z < 0], [SYMBOLS[2]] for
    [0 <= z < 0.4] and [SYMBOLS[3]] for [z >= 0.4]: nearer points get
    denser glyphs.  (In binary32 a [z] within a rounding error of a
    threshold can fall on its other side.) *)
Theorem drawn_glyph_thresholds (r c : Z) (scr : list string) (dep : list Q)
    (p : Point Q) (idx : Z) (d : Q) :
  length scr = length dep → target r c p = Some idx →
  0 ≤ idx < Z.of_nat (length dep) → dep !! Z.to_nat idx = Some d →
  (d < z p)%Q → (z p <= 800000000 # 1)%Q →
  ∃ g, render_mesh_body r c (scr, dep) p =
         Ok (<[Z.to_nat idx := g]> scr, <[Z.to_nat idx := z p]> dep) ∧
       ((z p < - (4 # 10))%Q → g = "░") ∧
       ((- (4 # 10) <= z p)%Q → (z p < 0)%Q → g = "▒") ∧
       ((0 <= z p)%Q → (z p < 4 # 10)%Q → g = "▓") ∧
       ((4 # 10 <= z p)%Q → g = "█").
Proof.
  intros Hlen Ht Hidx Hd Hlt Hz.
  exists (glyph_of (z p)). split.
  - assert (Hsafe : safe (length dep) r c p) by (unfold safe; now rewrite Ht).
    rewrite (render_mesh_body_safe (length dep)) by done.
    unfold raster_step, paint. rewrite Ht. simpl. rewrite Hd.
    apply Qltb_lt in Hlt. now rewrite Hlt.
  - destruct (shade_of_cases (z p) (z p) Hz) as (H0 & H1 & H2 & H3 & _).
    repeat split.
    + intros Ha. now apply H0.
    + intros Ha Hb. now apply H1.
    + intros Ha Hb. now apply H2.
    + intros Ha. now apply H3.
Qed.

Lemma drawn_glyph_thresholds_witness :
  ∃ g, render_mesh_body 3 4 (replicate 12 BLANK, replicate 12 FAR) (pt 0 0 (1 # 2)) =
         Ok (<[Z.to_nat 5 := g]> (replicate 12 BLANK),
             <[Z.to_nat 5 := z (pt 0 0 (1 # 2))]> (replicate 12 FAR)) ∧
       g = "█".
Proof.
  destruct (drawn_glyph_thresholds 3 4 (replicate 12 BLANK) (replicate 12 FAR)
              (pt 0 0 (1 # 2)) 5 FAR) as (g & Hbody & _ & _ & _ & Hg);
    [reflexivity | reflexivity | (simpl; lia) | reflexivity | reflexivity | discriminate |].
  exists g. split; [exact Hbody|]. apply Hg. discriminate.
Defined.

(** ** What the process does for every terminal size *)

Lemma wrap_int_high (n : Z) : INT_MAX < n < 2 ^ 32 → wrap_int n = n - 2 ^ 32.
Proof.
  unfold wrap_int, INT_MAX. intros Hn.
  replace (n + 2 ^ 31) with (n - 2 ^ 31 + 1 * 2 ^ 32) by lia.
  rewrite Z.mod_add by lia. rewrite Z.mod_small; lia.
Qed.

Section Outcomes.
Context `{Libm Q}.
Variable NUM_POINTS : Z.

(** X15.  The sizes [main] passes on are between 0 and 65535.  When their
    product is an [int], every iteration of the loop writes one frame and
    the process never ends.  Otherwise the first call of [render_mesh]
    throws [std::length_error] before anything is written, and that ends
    the process.  In no case does [main] index a buffer out of bounds. *)
Theorem main_outcomes (env : ioctl_outcome) (k : nat) :
  let w := ioctl_TIOCGWINSZ env (mkWinsize 0 0) in
  (0 ≤ ws_row w ≤ 65535 ∧ 0 ≤ ws_col w ≤ 65535) ∧
  (ws_row w * ws_col w ≤ INT_MAX →
     length (written (main NUM_POINTS env k)) = k ∧
     ended (main NUM_POINTS env k) = None) ∧
  (INT_MAX < ws_row w * ws_col w → (1 ≤ k)%nat →
     written (main NUM_POINTS env k) = [] ∧
     ended (main NUM_POINTS env k) = Some LengthError).
Proof.
  intros w.
  assert (Hw : 0 ≤ ws_row w ≤ 65535 ∧ 0 ≤ ws_col w ≤ 65535).
  { unfold w. destruct env as [|row col]; simpl; [lia|].
    pose proof (Z.mod_pos_bound row (2 ^ 16)). pose proof (Z.mod_pos_bound col (2 ^ 16)).
    lia. }
  split; [exact Hw|]. unfold main. fold w.
  set (st0 := mkProcess (init_mesh NUM_POINTS) [] None). split.
  - intros Hfit.
    assert (Hok : dims_ok (ws_row w) (ws_col w)) by (unfold dims_ok; lia).
    induction k as [|k [IHw IHe]]; [done|].
    rewrite Nat.iter_succ. unfold loop_iteration at 1 3. rewrite IHe.
    rewrite (render_mesh_dims_ok _ _ _ Hok). simpl.
    rewrite length_app, IHw. simpl. split; [lia | done].
  - intros Hbig Hk.
    assert (Hneg : (int_mul (ws_row w) (ws_col w) <? 0) = true).
    { apply Z.ltb_lt. unfold int_mul. rewrite wrap_int_high; nia. }
    assert (Hfirst : ∀ pts, render_mesh pts (ws_row w) (ws_col w) = Fault LengthError)
      by (intros pts; rewrite render_mesh_unfold; now rewrite Hneg).
    destruct k as [|k]; [lia|]. clear Hk.
    induction k as [|k [IHw IHe]].
    + simpl. unfold loop_iteration. simpl. now rewrite Hfirst.
    + rewrite Nat.iter_succ. unfold loop_iteration at 1 3. now rewrite IHe.
Qed.
End Outcomes.

Lemma main_outcomes_witness :
  length (written (main 4 (IoctlOk 3 4) 5)) = 5%nat ∧
  written (main 4 (IoctlOk 65535 65535) 2) = [].
Proof.
  split.
  - apply (main_outcomes 4 (IoctlOk 3 4) 5). vm_compute. discriminate.
  - apply (main_outcomes 4 (IoctlOk 65535 65535) 2); [reflexivity | lia].
Defined.

(** ** The single-point renderer *)

Lemma float_of_int_exact (n : Z) : 0 ≤ n ≤ 2 ^ 24 → float_of_int n = inject_Z n.
Proof.
  intros Hn. unfold float_of_int. cbv zeta.
  destruct (Z.abs n <? 2 ^ 24) eqn:E; [done|].
  apply Z.ltb_ge in E. assert (n = 2 ^ 24) as -> by lia. reflexivity.
Qed.

Lemma render_axis_in_domain (v : Q) (bound : Z) :
  (- MAX_X_Y <= v)%Q → (v <= MAX_X_Y)%Q → 0 ≤ bound ≤ 2 ^ 24 →
  let s := convert_range v (- MAX_X_Y)%fl MAX_X_Y (float_of_int 0) (float_of_int bound) in
  static_cast_int (std_floor s) = Qfloor s ∧ 0 ≤ Qfloor s ≤ bound ∧
  (v == - MAX_X_Y → Qfloor s = 0) ∧ (v == MAX_X_Y → Qfloor s = bound).
Proof.
  intros Hlo Hhi Hb s.
  assert (Hs : s == (v + (8 # 10)) * (10 # 16) * inject_Z bound).
  { unfold s. rewrite (float_of_int_exact bound Hb).
    change (float_of_int 0) with (inject_Z 0).
    unfold convert_range, MAX_X_Y, MAJOR_RADIUS, MINOR_RADIUS. simpl.
    field. }
  assert (Hk : (0 <= inject_Z bound)%Q)
    by (change 0%Q with (inject_Z 0); rewrite <- Zle_Qle; lia).
  assert (Hv : (0 <= (v + (8 # 10)) * (10 # 16))%Q ∧ ((v + (8 # 10)) * (10 # 16) <= 1)%Q).
  { unfold MAX_X_Y, MAJOR_RADIUS, MINOR_RADIUS in Hlo, Hhi. simpl in Hlo, Hhi. split; lra. }
  assert (Hrange : 0 ≤ Qfloor s ≤ bound).
  { split.
    - apply Qfloor_ge. rewrite Hs. change (inject_Z 0) with 0%Q.
      set (t := ((v + (8 # 10)) * (10 # 16))%Q) in *. clearbody t.
      set (kq := inject_Z bound) in *. clearbody kq. nra.
    - rewrite <- (Qfloor_Z bound). apply Qfloor_resp_le. rewrite Hs.
      set (t := ((v + (8 # 10)) * (10 # 16))%Q) in *. clearbody t.
      set (kq := inject_Z bound) in *. clearbody kq. nra. }
  split; [|split; [exact Hrange|split]].
  - rewrite static_cast_int_floor.
    replace (in_int (Qfloor s)) with true; [done|].
    symmetry. apply in_int_spec. unfold INT_MIN, INT_MAX. lia.
  - intros E. transitivity (Qfloor (inject_Z 0)); [|apply Qfloor_Z].
    apply Qfloor_comp. rewrite Hs, E.
    unfold MAX_X_Y, MAJOR_RADIUS, MINOR_RADIUS. simpl. ring.
  - intros E. transitivity (Qfloor (inject_Z bound)); [|apply Qfloor_Z].
    apply Qfloor_comp. rewrite Hs, E.
    unfold MAX_X_Y, MAJOR_RADIUS, MINOR_RADIUS. simpl. ring.
Qed.

(** X16.  In exact arithmetic, for a point whose [x] and [y] are in
    [-(R+r), R+r] and terminal sizes from 0 to 2^24 (the sizes a [float]
    parameter holds exactly), [render_point] writes the cursor position
    sequence for a row in [0, rows] and a column in [0, cols], followed by
    a percent sign.  Its conversion goes up to [cols] and [rows], not
    [cols - 1] and [rows - 1]: a point with [x = R + r] is put in column
    [cols], and one with [x = -(R+r)] in column 0. *)
Theorem render_point_position (p : Point Q) (term_rows term_cols : Z) :
  (- MAX_X_Y <= x p)%Q → (x p <= MAX_X_Y)%Q →
  (- MAX_X_Y <= y p)%Q → (y p <= MAX_X_Y)%Q →
  0 ≤ term_rows ≤ 2 ^ 24 → 0 ≤ term_cols ≤ 2 ^ 24 →
  ∃ row col,
    render_point p term_rows term_cols = print_at_pos row col "%"%char ∧
    0 ≤ row ≤ term_rows ∧ 0 ≤ col ≤ term_cols ∧
    (x p == MAX_X_Y → col = term_cols) ∧ (x p == - MAX_X_Y → col = 0) ∧
    (y p == MAX_X_Y → row = term_rows) ∧ (y p == - MAX_X_Y → row = 0).
Proof.
  intros Hx0 Hx1 Hy0 Hy1 Hr Hc.
  destruct (render_axis_in_domain (x p) term_cols Hx0 Hx1 Hc) as (Ec & Hcol & Hcl & Hch).
  destruct (render_axis_in_domain (y p) term_rows Hy0 Hy1 Hr) as (Er & Hrow & Hrl & Hrh).
  cbv zeta in Ec, Hcol, Hcl, Hch, Er, Hrow, Hrl, Hrh.
  eexists _, _. split; [unfold render_point; cbv zeta; rewrite Ec, Er; reflexivity|].
  repeat split; try lia; assumption.
Qed.

Lemma render_point_position_witness :
  ∃ row col, render_point (pt (8 # 10) 0 0) 24 80 = print_at_pos row col "%"%char ∧
             0 ≤ row ≤ 24 ∧ 0 ≤ col ≤ 80.
Proof.
  destruct (render_point_position (pt (8 # 10) 0 0) 24 80)
    as (row & col & E & Hrow & Hcol & _); try lia; try discriminate.
  exists row, col. repeat split; try assumption; lia.
Defined.

(** ** The cursor position sequence *)

Lemma pretty_N_char_int (n : N) : int_char (pretty_N_char n) = true.
Proof. unfold pretty_N_char. repeat case_match; reflexivity. Qed.

Lemma pretty_N_go_int (n : N) (s : string) :
  all_int_chars s = true → all_int_chars (pretty_N_go n s) = true.
Proof.
  revert s. induction (N.lt_wf_0 n) as [n _ IH]. intros s Hs.
  destruct (decide (n = 0)%N) as [->|Hn].
  - now rewrite pretty_N_go_0.
  - rewrite pretty_N_go_step by lia. apply IH.
    + apply N.div_lt; lia.
    + simpl. now rewrite pretty_N_char_int.
Qed.

Lemma print_int_chars (n : Z) : all_int_chars (print_int n) = true.
Proof.
  assert (HN : ∀ m : N, all_int_chars (pretty m) = true).
  { intros m. unfold pretty, pretty_N. case_decide; [reflexivity|].
    now apply pretty_N_go_int. }
  unfold print_int, pretty, pretty_Z. destruct n as [|q|q].
  - reflexivity.
  - apply (HN (N.pos q)).
  - change (all_int_chars (String "-" (pretty (N.pos q))) = true).
    simpl. apply (HN (N.pos q)).
Qed.

(** Two texts that agree, each made of a number, a separator that is not
    a character of numbers, and a rest, have the same number and rest. *)
Lemma split_at_separator (a a' r r' : string) (sep : ascii) :
  all_int_chars a = true → all_int_chars a' = true → int_char sep = false →
  a +:+ String sep r = a' +:+ String sep r' → a = a' ∧ r = r'.
Proof.
  intros Ha Ha' Hsep. revert a' Ha'.
  induction a as [|ch a IH]; intros [|ch' a'] Ha' E.
  - change (String sep r = String sep r') in E. injection E as E. done.
  - change (String sep r = String ch' (a' +:+ String sep r')) in E.
    injection E as -> _. simpl in Ha'. rewrite Hsep in Ha'. done.
  - change (String ch (a +:+ String sep r) = String sep r') in E.
    injection E as -> _. simpl in Ha. rewrite Hsep in Ha. done.
  - change (String ch (a +:+ String sep r) = String ch' (a' +:+ String sep r')) in E.
    injection E as -> E. simpl in Ha, Ha'.
    apply andb_true_iff in Ha as [_ Ha]. apply andb_true_iff in Ha' as [_ Ha'].
    destruct (IH Ha a' Ha' E) as [-> ->]. done.
Qed.

(** X17.  The sequence [print_at_pos] writes determines its arguments:
    two calls that write the same bytes were given the same row, the same
    column and the same character. *)
Theorem print_at_pos_injective (row col row' col' : Z) (ch ch' : ascii) :
  print_at_pos row col ch = print_at_pos row' col' ch' →
  row = row' ∧ col = col' ∧ ch = ch'.
Proof.
  unfold print_at_pos, ESC. intros E.
  change (String (ascii_of_nat 27) (String "[" (print_int row +:+ String ";"
            (print_int col +:+ String "H" (String ch "")))) =
          String (ascii_of_nat 27) (String "[" (print_int row' +:+ String ";"
            (print_int col' +:+ String "H" (String ch' ""))))) in E.
  injection E as E.
  apply split_at_separator in E as [Erow E];
    [| apply print_int_chars | apply print_int_chars | reflexivity].
  apply split_at_separator in E as [Ecol E];
    [| apply print_int_chars | apply print_int_chars | reflexivity].
  injection E as ->.
  unfold print_int in Erow, Ecol.
  apply (inj pretty) in Erow. apply (inj pretty) in Ecol. done.
Qed.

Lemma print_at_pos_injective_witness :
  12 = 12 ∧ 40 = 40 ∧ "%"%char = "%"%char.
Proof.
  apply (print_at_pos_injective 12 40 12 40 "%" "%"). reflexivity.
Defined.

(** ** The layout of a frame *)

Lemma foldl_append_concat {B : Type} (g : B → string) (l : list B) (a : string) :
  foldl (fun out b => out +:+ g b) a l = a +:+ concat_strings (g <$> l).
Proof.
  revert a. induction l as [|b l IH]; intros a.
  - simpl. now rewrite append_empty_r.
  - cbn [foldl fmap list_fmap concat_strings foldr]. rewrite IH.
    now rewrite append_assoc.
Qed.

Lemma frame_text_rows (r c : Z) (scr : list string) :
  frame_text r c scr = CURSOR_HOME +:+ concat_strings (row_text c scr <$> seqZ 0 r).
Proof.
  unfold frame_text. rewrite <- foldl_append_concat.
  apply foldl_ext_in. intros out r' _.
  rewrite foldl_append_concat. unfold row_text. now rewrite append_assoc.
Qed.

(** X18.  For terminal dimensions whose cell count is an [int], the text
    [render_mesh] writes is the cursor-home sequence followed by the rows
    from top to bottom, each row being the glyphs of its [cols] cells from
    left to right (cell [(r, c)] is entry [r * cols + c] of the buffer)
    and a line break; the buffer has [rows * cols] cells. *)
Theorem frame_layout (pts : list (Point Q)) (r c : Z) :
  dims_ok r c →
  ∃ f, render_mesh pts r c = Ok f ∧
       length (screen f) = Z.to_nat (r * c) ∧
       cout f = CURSOR_HOME +:+ concat_strings (row_text c (screen f) <$> seqZ 0 r).
Proof.
  intros Hok. rewrite (render_mesh_dims_ok pts r c Hok). cbv zeta.
  eexists. split; [reflexivity|]. simpl. split.
  - destruct (foldl_raster_length r c pts
                (replicate (Z.to_nat (r * c)) BLANK, replicate (Z.to_nat (r * c)) FAR))
      as [-> _].
    simpl. apply length_replicate.
  - apply frame_text_rows.
Qed.

Lemma frame_layout_witness :
  ∃ f, render_mesh [pt 0 0 0] 2 3 = Ok f ∧
       cout f = CURSOR_HOME +:+ concat_strings (row_text 3 (screen f) <$> seqZ 0 2).
Proof.
  destruct (frame_layout [pt 0 0 0] 2 3) as (f & Hf & _ & Hout).
  - unfold dims_ok, INT_MAX. lia.
  - exists f. split; assumption.
Defined.

(** ** Several frames as one matrix *)

Section MatrixOfFrames.
Local Open Scope R_scope.

Lemma rotate_point_compose (p : Point R) (a b : list R) :
  rotate_point (rotate_point p a) b = rotate_point p (mat_mul b a).
Proof.
  unfold rotate_point, mat_mul, mat_entry, at9. cbn [nth Nat.mul Nat.add x y z].
  cbn [add sub mul neg R_scalar].
  destruct p as [px py pz]. cbn [x y z].
  apply (f_equal3 mkPoint); ring.
Qed.

Lemma rotate_point_identity (p : Point R) : rotate_point p identity = p.
Proof.
  unfold rotate_point, identity, at9. cbn [nth]. rewrite lit_R_0, lit_R_1.
  cbn [add sub mul neg R_scalar].
  destruct p as [px py pz]. cbn [x y z].
  apply (f_equal3 mkPoint); ring.
Qed.

(** X19.  In real arithmetic, rotating a point first by a matrix [a] and
    then by [b] is rotating it once by the product [b * a]; so the
    collection after [k] frames is the initial one with every point
    rotated once by the [k]-th power of [ROT]. *)
Theorem frames_compose (k : nat) (pts : list (Point R)) :
  (∀ (p : Point R) (a b : list R),
     rotate_point (rotate_point p a) b = rotate_point p (mat_mul b a)) ∧
  rotate_frames k pts = (fun p => rotate_point p (mat_pow ROT k)) <$> pts.
Proof.
  split; [apply rotate_point_compose|].
  unfold rotate_frames. induction k as [|k IH].
  - change (Nat.iter 0 rotate_mesh pts) with pts.
    rewrite <- (list_fmap_id pts) at 1. apply list_fmap_ext.
    intros i p _. cbn [mat_pow]. now rewrite rotate_point_identity.
  - rewrite Nat.iter_succ, IH. unfold rotate_mesh. rewrite <- list_fmap_compose.
    apply list_fmap_ext. intros i p _. unfold compose. cbn [mat_pow].
    apply rotate_point_compose.
Qed.
End MatrixOfFrames.
